(** * Maze graph backings: edge list and incidence matrix

    A shallow embedding of [maze/edgeListGraph.py] and
    [maze/incidenceMatGraph.py].  Both classes implement the same
    undirected-graph interface; every edge carries a boolean wall flag.

    Python objects are mutated in place; here every method takes the
    object's state and returns the new state together with the returned
    value.  A method that can raise ([list] indexing, [list.pop], [dict]
    lookup) returns a [result]. *)

From stdpp Require Import base option list gmap.
From Stdlib Require Import ZArith.

(** ** Values *)

(** Modelled from the spec: [maze.util.Coordinates] is imported by both
    classes but is not part of the sources.  The spec describes it as an
    immutable 2D label compared and hashed by value, so a pair of integers
    (row, column) with structural equality. *)
Definition Coordinates : Type := Z * Z.

#[global] Instance Coordinates_eq_dec : EqDecision Coordinates.
Proof. unfold Coordinates. apply _. Defined.

#[global] Instance Coordinates_countable : Countable Coordinates.
Proof. unfold Coordinates. apply _. Defined.

(** An element of [self.edges]: the tuple [(vert1, vert2, wallStatus)]. *)
Abbreviation Edge := (Coordinates * Coordinates * bool)%type.

(** ** Python exceptions *)

Inductive exn : Set := IndexError | KeyError.

Inductive result (A : Type) : Type :=
| Ok (a : A)
| Raise (e : exn).
Arguments Ok {A} a.
Arguments Raise {A} e.

#[global] Instance result_ret : MRet result := @Ok.
#[global] Instance result_bind : MBind result := λ A B f m,
  match m with
  | Ok a => f a
  | Raise e => Raise e
  end.

(** [l[i]] for a non-negative [i]. *)
Definition getitem {A} (l : list A) (i : nat) : result A :=
  match l !! i with
  | Some x => Ok x
  | None => Raise IndexError
  end.

(** [l[i] = x] for a non-negative [i]. *)
Definition setitem {A} (l : list A) (i : nat) (x : A) : result (list A) :=
  if decide (i < length l) then Ok (<[i:=x]> l) else Raise IndexError.

(** [l.pop(i)] for a non-negative [i]; the popped element is dropped. *)
Definition pop {A} (l : list A) (i : nat) : result (list A) :=
  if decide (i < length l) then Ok (delete i l) else Raise IndexError.

(** [d[k]]. *)
Definition dict_getitem {V} (d : gmap Coordinates V) (k : Coordinates)
  : result V :=
  match d !! k with
  | Some x => Ok x
  | None => Raise KeyError
  end.

(** [for row in rows: row.pop(i)], every row being its own list object. *)
Fixpoint pop_each (rows : list (list Z)) (i : nat) : result (list (list Z)) :=
  match rows with
  | [] => Ok []
  | row :: rest =>
      row' ← pop row i;
      rest' ← pop_each rest i;
      Ok (row' :: rest')
  end.

(** [mat[r][c] = x]: the row object is fetched, then updated in place. *)
Definition set_cell (mat : list (list Z)) (r c : nat) (x : Z)
  : result (list (list Z)) :=
  row ← getitem mat r;
  row' ← setitem row c x;
  Ok (<[r:=row']> mat).

(** ** The edge tests

    The sources spell the test for "this tuple joins [vert1] and [vert2]"
    in two ways that differ in the order of the second pair of
    comparisons. *)

(** [(v1 == vert1 and v2 == vert2) or (v1 == vert2 and v2 == vert1)] *)
Definition same_edge (vert1 vert2 : Coordinates) (e : Edge) : bool :=
  match e with
  | (v1, v2, _) =>
      (bool_decide (v1 = vert1) && bool_decide (v2 = vert2))
      || (bool_decide (v1 = vert2) && bool_decide (v2 = vert1))
  end.

(** [(v1 == vert1 and v2 == vert2) or (v2 == vert1 and v1 == vert2)] *)
Definition same_edge' (vert1 vert2 : Coordinates) (e : Edge) : bool :=
  match e with
  | (v1, v2, _) =>
      (bool_decide (v1 = vert1) && bool_decide (v2 = vert2))
      || (bool_decide (v2 = vert1) && bool_decide (v1 = vert2))
  end.

(** ** The calls of the graph interface that change the graph *)

Inductive op : Type :=
| AddVertex (label : Coordinates)
| AddVertices (vertLabels : list Coordinates)
| AddEdge (vert1 vert2 : Coordinates) (addWall : bool)
| UpdateWall (vert1 vert2 : Coordinates) (wallStatus : bool)
| RemoveEdge (vert1 vert2 : Coordinates).

(** ** [EdgeListGraph] *)

Module EdgeListGraph.

Record graph : Type := mk {
  edges : list Edge;
  vertices : gset Coordinates
}.

(** [__init__] *)
Definition init : graph := mk [] ∅.

Definition hasVertex (g : graph) (label : Coordinates) : bool :=
  bool_decide (label ∈ vertices g).

Definition hasEdge (g : graph) (vert1 vert2 : Coordinates) : bool :=
  existsb (same_edge' vert1 vert2) (edges g).

Definition addVertex (g : graph) (label : Coordinates) : graph :=
  mk (edges g) ({[label]} ∪ vertices g).

Definition addVertices (g : graph) (vertLabels : list Coordinates) : graph :=
  foldl addVertex g vertLabels.

Definition addEdge (g : graph) (vert1 vert2 : Coordinates) (addWall : bool)
  : graph * bool :=
  if negb (hasVertex g vert1) || negb (hasVertex g vert2) then (g, false)
  else if negb (hasEdge g vert1 vert2) then
    (mk (edges g ++ [(vert1, vert2, addWall)]) (vertices g), true)
  else (g, false).

(** The call [addEdge(vert1, vert2)], [addWall] left to its default. *)
Definition addEdge_default (g : graph) (vert1 vert2 : Coordinates)
  : graph * bool :=
  addEdge g vert1 vert2 false.

(** The loop stops at the first tuple that passes the test; [i] is in
    range, so the assignment [self.edges[i] = ...] cannot raise. *)
Definition updateWall (g : graph) (vert1 vert2 : Coordinates)
    (wallStatus : bool) : graph * bool :=
  match list_find (λ e, same_edge vert1 vert2 e : Prop) (edges g) with
  | Some (i, (v1, v2, _)) =>
      (mk (<[i:=(v1, v2, wallStatus)]> (edges g)) (vertices g), true)
  | None => (g, false)
  end.

Definition removeEdge (g : graph) (vert1 vert2 : Coordinates)
  : graph * bool :=
  match list_find (λ e, same_edge vert1 vert2 e : Prop) (edges g) with
  | Some (i, _) => (mk (delete i (edges g)) (vertices g), true)
  | None => (g, false)
  end.

Definition getWallStatus (g : graph) (vert1 vert2 : Coordinates) : bool :=
  match list_find (λ e, same_edge vert1 vert2 e : Prop) (edges g) with
  | Some (_, (_, _, wallStatus)) => wallStatus
  | None => false
  end.

(** The body of the [for] loop of [neighbours]; the list is built in
    iteration order. *)
Fixpoint neighbours_loop (label : Coordinates) (es : list Edge)
  : list Coordinates :=
  match es with
  | [] => []
  | (v1, v2, _) :: rest =>
      if bool_decide (v1 = label) then v2 :: neighbours_loop label rest
      else if bool_decide (v2 = label) then v1 :: neighbours_loop label rest
      else neighbours_loop label rest
  end.

Definition neighbours (g : graph) (label : Coordinates) : list Coordinates :=
  neighbours_loop label (edges g).

(** One interface call; the returned flag is dropped. *)
Definition exec (g : graph) (o : op) : graph :=
  match o with
  | AddVertex label => addVertex g label
  | AddVertices vertLabels => addVertices g vertLabels
  | AddEdge vert1 vert2 addWall => (addEdge g vert1 vert2 addWall).1
  | UpdateWall vert1 vert2 wallStatus =>
      (updateWall g vert1 vert2 wallStatus).1
  | RemoveEdge vert1 vert2 => (removeEdge g vert1 vert2).1
  end.

Definition run_from (g : graph) (ops : list op) : graph := foldl exec g ops.

(** The calls [ops] made, in order, on a fresh object. *)
Definition run (ops : list op) : graph := run_from init ops.

Definition reachable (g : graph) : Prop := ∃ ops, run ops = g.

End EdgeListGraph.

(** ** [IncMatGraph] *)

Module IncMatGraph.

Record graph : Type := mk {
  vertices : gmap Coordinates nat;
  edges : list Edge;
  incidence_mat : list (list Z)
}.

(** [__init__] *)
Definition init : graph := mk ∅ [] [].

Definition hasVertex (g : graph) (label : Coordinates) : bool :=
  bool_decide (is_Some (vertices g !! label)).

Definition hasEdge (g : graph) (vert1 vert2 : Coordinates) : bool :=
  existsb (same_edge vert1 vert2) (edges g).

(** The new row is [[0] * len(self.edges)], a fresh list. *)
Definition addVertex (g : graph) (label : Coordinates) : graph :=
  if negb (hasVertex g label) then
    mk (<[label:=size (vertices g)]> (vertices g))
       (edges g)
       (incidence_mat g ++ [replicate (length (edges g)) 0%Z])
  else g.

Definition addVertices (g : graph) (vertLabels : list Coordinates) : graph :=
  foldl addVertex g vertLabels.

(** [index = len(self.edges) - 1] is read after the append, so it is
    never negative. *)
Definition addEdge (g : graph) (vert1 vert2 : Coordinates) (addWall : bool)
  : result (graph * bool) :=
  if negb (bool_decide (is_Some (vertices g !! vert1)))
     || negb (bool_decide (is_Some (vertices g !! vert2)))
  then Ok (g, false)
  else if hasEdge g vert1 vert2 then Ok (g, false)
  else
    let edges' := edges g ++ [(vert1, vert2, addWall)] in
    let mat0 := (λ row, row ++ [0%Z]) <$> incidence_mat g in
    let index := length edges' - 1 in
    r1 ← dict_getitem (vertices g) vert1;
    mat1 ← set_cell mat0 r1 index 1%Z;
    r2 ← dict_getitem (vertices g) vert2;
    mat2 ← set_cell mat1 r2 index 1%Z;
    Ok (mk (vertices g) edges' mat2, true).

(** The call [addEdge(vert1, vert2)], [addWall] left to its default. *)
Definition addEdge_default (g : graph) (vert1 vert2 : Coordinates)
  : result (graph * bool) :=
  addEdge g vert1 vert2 false.

Definition updateWall (g : graph) (vert1 vert2 : Coordinates)
    (wallStatus : bool) : graph * bool :=
  match list_find (λ e, same_edge vert1 vert2 e : Prop) (edges g) with
  | Some (i, (v1, v2, _)) =>
      (mk (vertices g) (<[i:=(v1, v2, wallStatus)]> (edges g))
          (incidence_mat g), true)
  | None => (g, false)
  end.

(** [self.edges.pop(i)] is in range; [row.pop(i)] raises on a row that
    has no column [i]. *)
Definition removeEdge (g : graph) (vert1 vert2 : Coordinates)
  : result (graph * bool) :=
  match list_find (λ e, same_edge' vert1 vert2 e : Prop) (edges g) with
  | Some (i, _) =>
      mat' ← pop_each (incidence_mat g) i;
      Ok (mk (vertices g) (delete i (edges g)) mat', true)
  | None => Ok (g, false)
  end.

Definition getWallStatus (g : graph) (vert1 vert2 : Coordinates) : bool :=
  match list_find (λ e, same_edge' vert1 vert2 e : Prop) (edges g) with
  | Some (_, (_, _, status)) => status
  | None => false
  end.

(** The [for i, (v1, v2, _) in enumerate(self.edges)] loop of
    [neighbours], from position [i] on. *)
Fixpoint neighbours_loop (mat : list (list Z)) (index : nat)
    (label : Coordinates) (i : nat) (es : list Edge)
  : result (list Coordinates) :=
  match es with
  | [] => Ok []
  | (v1, v2, _) :: rest =>
      row ← getitem mat index;
      cell ← getitem row i;
      more ← neighbours_loop mat index label (S i) rest;
      if bool_decide (cell = 1%Z) then
        if bool_decide (v1 = label) then Ok (v2 :: more) else Ok (v1 :: more)
      else Ok more
  end.

Definition neighbours (g : graph) (label : Coordinates)
  : result (list Coordinates) :=
  if hasVertex g label then
    index ← dict_getitem (vertices g) label;
    neighbours_loop (incidence_mat g) index label 0 (edges g)
  else Ok [].

(** One interface call; the returned flag is dropped. *)
Definition exec (g : graph) (o : op) : result graph :=
  match o with
  | AddVertex label => Ok (addVertex g label)
  | AddVertices vertLabels => Ok (addVertices g vertLabels)
  | AddEdge vert1 vert2 addWall =>
      r ← addEdge g vert1 vert2 addWall; Ok r.1
  | UpdateWall vert1 vert2 wallStatus =>
      Ok (updateWall g vert1 vert2 wallStatus).1
  | RemoveEdge vert1 vert2 => r ← removeEdge g vert1 vert2; Ok r.1
  end.

Fixpoint run_from (g : graph) (ops : list op) : result graph :=
  match ops with
  | [] => Ok g
  | o :: rest => g' ← exec g o; run_from g' rest
  end.

(** The calls [ops] made, in order, on a fresh object. *)
Definition run (ops : list op) : result graph := run_from init ops.

Definition reachable (g : graph) : Prop := ∃ ops, run ops = Ok g.

End IncMatGraph.

Module EL := EdgeListGraph.
Module IM := IncMatGraph.

(** ** Invariants and derived notions *)

(** [label] is an endpoint of the tuple. *)
Definition touches (label : Coordinates) (e : Edge) : bool :=
  match e with
  | (v1, v2, _) => bool_decide (v1 = label) || bool_decide (v2 = label)
  end.

(** Some tuple of the collection joins [vert1] and [vert2]. *)
Definition edge_in (vert1 vert2 : Coordinates) (es : list Edge) : bool :=
  existsb (same_edge vert1 vert2) es.

(** No two tuples of the collection join the same unordered pair. *)
Fixpoint simple (es : list Edge) : Prop :=
  match es with
  | [] => True
  | (v1, v2, _) :: rest => edge_in v1 v2 rest = false ∧ simple rest
  end.

(** Both endpoints of every tuple satisfy [P]. *)
Definition endpoints_in (P : Coordinates → Prop) (es : list Edge) : Prop :=
  Forall (λ e, P e.1.1 ∧ P e.1.2) es.

(** The invariant of [EdgeListGraph]. *)
Definition el_wf (g : EL.graph) : Prop :=
  endpoints_in (λ v, v ∈ EL.vertices g) (EL.edges g) ∧ simple (EL.edges g).

(** The edge-list view of an incidence-matrix graph: the same tuples, and
    the keys of the index dictionary as vertex set. *)
Definition abs (g : IM.graph) : EL.graph :=
  EL.mk (IM.edges g) (dom (IM.vertices g)).

(** The matrix row that belongs to [label]: one cell per tuple, 1 where
    [label] is an endpoint. *)
Definition row_of (label : Coordinates) (es : list Edge) : list Z :=
  (λ e, if touches label e then 1%Z else 0%Z) <$> es.

(** The invariant of [IncMatGraph]. *)
Record im_wf (g : IM.graph) : Prop := {
  wf_edges : el_wf (abs g);
  wf_height : length (IM.incidence_mat g) = size (IM.vertices g);
  wf_inj : ∀ v v' r,
    IM.vertices g !! v = Some r → IM.vertices g !! v' = Some r → v = v';
  wf_surj : ∀ r, r < size (IM.vertices g) → ∃ v, IM.vertices g !! v = Some r;
  wf_rows : ∀ v r,
    IM.vertices g !! v = Some r →
    IM.incidence_mat g !! r = Some (row_of v (IM.edges g))
}.

(** The number of rows that have a 1 in column [i]. *)
Definition ones_in_column (mat : list (list Z)) (i : nat) : nat :=
  length (filter (λ row, row !! i = Some 1%Z) mat).

(** The call puts [label] into the vertex set. *)
Definition adds (label : Coordinates) (o : op) : Prop :=
  match o with
  | AddVertex l => l = label
  | AddVertices ls => label ∈ ls
  | _ => False
  end.

(** The shape of the matrix as the specification words it: one row per
    vertex, one cell per edge in every row, and in the column of every
    edge exactly two cells that hold 1, at the rows of its endpoints. *)
Definition two_ones_per_column (g : IM.graph) : Prop :=
  length (IM.incidence_mat g) = size (IM.vertices g)
  ∧ Forall (λ row, length row = length (IM.edges g)) (IM.incidence_mat g)
  ∧ ∀ i v1 v2 w, IM.edges g !! i = Some (v1, v2, w) →
      ones_in_column (IM.incidence_mat g) i = 2
      ∧ ∃ r1 r2 row1 row2,
          IM.vertices g !! v1 = Some r1 ∧ IM.vertices g !! v2 = Some r2
          ∧ IM.incidence_mat g !! r1 = Some row1 ∧ row1 !! i = Some 1%Z
          ∧ IM.incidence_mat g !! r2 = Some row2 ∧ row2 !! i = Some 1%Z
          ∧ ∀ r row, IM.incidence_mat g !! r = Some row →
              r ≠ r1 → r ≠ r2 → row !! i = Some 0%Z.


(** The number of cells of a row that hold 1. *)
Definition ones_in_row (row : list Z) : nat :=
  length (filter (λ c, c = 1%Z) row).

(** The two pairs name different unordered pairs of endpoints. *)
Definition other_pair (a b c d : Coordinates) : Prop :=
  ¬ ((c = a ∧ d = b) ∨ (c = b ∧ d = a)).

(** ** The scenario of the specification

    Three cells, a walled edge A-B and an open edge A-C. *)

Definition A : Coordinates := (0, 0)%Z.
Definition B : Coordinates := (0, 1)%Z.
Definition C : Coordinates := (1, 0)%Z.

Definition scenario : list op :=
  [AddVertices [A; B; C]; AddEdge A B true; AddEdge A C false].

Definition el_scenario : EL.graph :=
  EL.mk [(A, B, true); (A, C, false)] {[A; B; C]}.

Definition im_scenario : IM.graph :=
  IM.mk (<[C:=2]> (<[B:=1]> {[A:=0]}))
        [(A, B, true); (A, C, false)]
        [[1; 1]; [1; 0]; [0; 1]]%Z.

(** * Proofs *)

#[local] Arguments same_edge : simpl never.
#[local] Arguments same_edge' : simpl never.
#[local] Arguments edge_in : simpl never.

(** ** The edge tests *)

Lemma same_edge'_eq vert1 vert2 e : same_edge' vert1 vert2 e = same_edge vert1 vert2 e.
Proof.
  destruct e as [[v1 v2] w]. unfold same_edge', same_edge.
  f_equal. apply andb_comm.
Qed.

Lemma same_edge_true a b v1 v2 w :
  same_edge a b (v1, v2, w) = true ↔ (v1 = a ∧ v2 = b) ∨ (v1 = b ∧ v2 = a).
Proof.
  unfold same_edge.
  rewrite orb_true_iff, !andb_true_iff, !bool_decide_eq_true. tauto.
Qed.

Lemma same_edge_sym a b e : same_edge a b e = same_edge b a e.
Proof. destruct e as [[v1 v2] w]. unfold same_edge. apply orb_comm. Qed.

(** Testing for the endpoints of a tuple is testing for the same pair. *)
Lemma same_edge_swap a b v1 v2 w w' :
  same_edge a b (v1, v2, w) = same_edge v1 v2 (a, b, w').
Proof.
  apply eq_true_iff_eq. rewrite !same_edge_true. intuition congruence.
Qed.

Lemma same_edge_trans a b v1 v2 w e :
  same_edge a b (v1, v2, w) = true → same_edge a b e = same_edge v1 v2 e.
Proof.
  destruct e as [[u1 u2] w']. intros H%same_edge_true.
  apply eq_true_iff_eq. rewrite !same_edge_true. intuition congruence.
Qed.

Lemma same_edge_touches a b e : same_edge a b e = true → touches a e = true.
Proof.
  destruct e as [[v1 v2] w]. intros H%same_edge_true. unfold touches.
  rewrite orb_true_iff, !bool_decide_eq_true. tauto.
Qed.

Lemma list_find_same_edge' a b (es : list Edge) :
  list_find (λ e, same_edge' a b e : Prop) es
  = list_find (λ e, same_edge a b e : Prop) es.
Proof.
  induction es as [|e es IH]; [done|]. cbn.
  rewrite IH, same_edge'_eq. repeat case_decide; done.
Qed.

Lemma existsb_same_edge' a b (es : list Edge) :
  existsb (same_edge' a b) es = edge_in a b es.
Proof.
  unfold edge_in. induction es as [|e es IH]; [done|]. cbn.
  by rewrite IH, same_edge'_eq.
Qed.

(** ** Scanning the edge collection *)

Lemma edge_in_true a b es :
  edge_in a b es = true ↔ ∃ e, e ∈ es ∧ same_edge a b e = true.
Proof.
  unfold edge_in. rewrite existsb_exists.
  split; intros (e & H1 & H2); exists e; split; try done;
    by apply list_elem_of_In.
Qed.

Lemma edge_in_sym a b es : edge_in a b es = edge_in b a es.
Proof.
  unfold edge_in. induction es as [|e es IH]; [done|]. cbn.
  by rewrite IH, same_edge_sym.
Qed.

Lemma edge_in_app a b es es' :
  edge_in a b (es ++ es') = edge_in a b es || edge_in a b es'.
Proof. apply existsb_app. Qed.

Lemma find_edge_sym a b (es : list Edge) :
  list_find (λ e, same_edge a b e : Prop) es
  = list_find (λ e, same_edge b a e : Prop) es.
Proof.
  induction es as [|e es IH]; [done|]. cbn.
  rewrite IH, (same_edge_sym a b). done.
Qed.

Lemma find_edge_None a b (es : list Edge) :
  list_find (λ e, same_edge a b e : Prop) es = None ↔ edge_in a b es = false.
Proof.
  unfold edge_in. induction es as [|e es IH]; [done|]. cbn.
  destruct (same_edge a b e) eqn:E; cbn.
  - rewrite decide_True by done. split; discriminate.
  - rewrite decide_False by (intros []). rewrite <- IH.
    destruct (list_find _ es) as [[]|]; cbn; split; done.
Qed.

Lemma find_edge_Some a b (es : list Edge) :
  edge_in a b es = true →
  ∃ i v1 v2 w, list_find (λ e, same_edge a b e : Prop) es = Some (i, (v1, v2, w))
    ∧ es !! i = Some (v1, v2, w) ∧ same_edge a b (v1, v2, w) = true
    ∧ edge_in a b (take i es) = false.
Proof.
  induction es as [|e es IH]; [done|]. unfold edge_in. cbn.
  destruct (same_edge a b e) eqn:E; cbn.
  - intros _. destruct e as [[v1 v2] w]. exists 0, v1, v2, w.
    rewrite decide_True by done. done.
  - intros (i & v1 & v2 & w & H1 & H2 & H3 & H4)%IH.
    exists (S i), v1, v2, w. rewrite decide_False by (intros []).
    rewrite H1. cbn. unfold edge_in in H4. rewrite E, H4. done.
Qed.

Lemma edge_in_trans a b v1 v2 w es :
  same_edge a b (v1, v2, w) = true → edge_in a b es = edge_in v1 v2 es.
Proof.
  intros H. unfold edge_in. induction es as [|e es IH]; [done|]. cbn.
  by rewrite IH, (same_edge_trans _ _ _ _ _ _ H).
Qed.

Lemma edge_in_delete a b es i :
  edge_in a b (delete i es) = true → edge_in a b es = true.
Proof.
  rewrite !edge_in_true. intros (e & He & H). exists e. split; [|done].
  by eapply list_elem_of_delete_inv.
Qed.

Lemma edge_in_insert_flag a b es i v1 v2 w s :
  es !! i = Some (v1, v2, w) →
  edge_in a b (<[i:=(v1, v2, s)]> es) = edge_in a b es.
Proof.
  unfold edge_in. revert i. induction es as [|e es IH]; intros [|i] H; try done.
  - cbn in H. injection H as ->. done.
  - cbn in *. by rewrite IH.
Qed.

(** ** Simple edge collections *)

Lemma simple_app es a b w :
  simple es → edge_in a b es = false → simple (es ++ [(a, b, w)]).
Proof.
  induction es as [|[[v1 v2] w'] es IH]; cbn; [done|].
  intros [H1 H2] H. unfold edge_in in H. cbn in H.
  apply orb_false_iff in H as [Ha Hb]. split; [|by apply IH].
  rewrite edge_in_app, H1. cbn. unfold edge_in. cbn.
  by rewrite (same_edge_swap v1 v2 a b w w'), Ha.
Qed.

Lemma simple_delete es i : simple es → simple (delete i es).
Proof.
  revert i. induction es as [|[[v1 v2] w] es IH]; intros [|i]; cbn; try done.
  - tauto.
  - intros [H1 H2]. split; [|by apply IH].
    destruct (edge_in v1 v2 (delete i es)) eqn:E; [|done].
    apply edge_in_delete in E. congruence.
Qed.

Lemma simple_insert_flag es i v1 v2 w s :
  es !! i = Some (v1, v2, w) → simple es → simple (<[i:=(v1, v2, s)]> es).
Proof.
  revert i. induction es as [|[[u1 u2] w'] es IH]; intros [|i] H; try done.
  - cbn in H. injection H as -> -> ->. done.
  - cbn in *. intros [H1 H2]. split; [|by apply IH].
    by rewrite (edge_in_insert_flag _ _ _ _ _ _ w).
Qed.

(** In a simple collection, the tuple found first is the only one that
    joins the pair. *)
Lemma simple_delete_found a b es i e :
  simple es →
  list_find (λ e, same_edge a b e : Prop) es = Some (i, e) →
  edge_in a b (delete i es) = false.
Proof.
  revert i. induction es as [|[[v1 v2] w] es IH]; intros i; [done|].
  cbn. intros [H1 H2]. destruct (same_edge a b (v1, v2, w)) eqn:E.
  - rewrite decide_True by done. intros [= <- <-]. cbn.
    by rewrite (edge_in_trans _ _ _ _ _ _ E).
  - rewrite decide_False by (intros []).
    destruct (list_find _ es) as [[j e']|] eqn:F; [|done].
    cbn. intros [= <- <-]. cbn. unfold edge_in. cbn. rewrite E. cbn.
    by apply (IH j).
Qed.

(** ** Endpoints *)

Lemma endpoints_in_mono (P Q : Coordinates → Prop) es :
  (∀ v, P v → Q v) → endpoints_in P es → endpoints_in Q es.
Proof. intros H He. eapply Forall_impl; [exact He|]. intros e [? ?]. auto. Qed.

Lemma endpoints_in_touches (P : Coordinates → Prop) es v e :
  endpoints_in P es → e ∈ es → touches v e = true → P v.
Proof.
  intros H He Ht. eapply Forall_forall in H as [H1 H2]; [|done].
  destruct e as [[v1 v2] w]. cbn in *.
  apply orb_true_iff in Ht as [->%bool_decide_eq_true| ->%bool_decide_eq_true];
    done.
Qed.

(** ** [EdgeListGraph]: the methods *)

Lemma el_hasEdge g a b : EL.hasEdge g a b = edge_in a b (EL.edges g).
Proof. apply existsb_same_edge'. Qed.

Lemma el_hasVertex_true g v : EL.hasVertex g v = true ↔ v ∈ EL.vertices g.
Proof. apply bool_decide_eq_true. Qed.

Lemma el_addEdge_refused g a b w :
  EL.hasVertex g a = false ∨ EL.hasVertex g b = false ∨ EL.hasEdge g a b = true →
  EL.addEdge g a b w = (g, false).
Proof.
  unfold EL.addEdge. intros [-> | [-> | ->]]; cbn; [done| |].
  - by rewrite orb_true_r.
  - by destruct (_ || _).
Qed.

Lemma el_addEdge_accepted g a b w :
  EL.hasVertex g a = true → EL.hasVertex g b = true → EL.hasEdge g a b = false →
  EL.addEdge g a b w
  = (EL.mk (EL.edges g ++ [(a, b, w)]) (EL.vertices g), true).
Proof. unfold EL.addEdge. by intros -> -> ->. Qed.

Lemma el_updateWall_missing g a b s :
  EL.hasEdge g a b = false → EL.updateWall g a b s = (g, false).
Proof.
  rewrite el_hasEdge. intros H%find_edge_None. unfold EL.updateWall.
  by rewrite H.
Qed.

Lemma el_updateWall_found g a b s :
  EL.hasEdge g a b = true →
  ∃ i v1 v2 w,
    EL.edges g !! i = Some (v1, v2, w)
    ∧ same_edge a b (v1, v2, w) = true
    ∧ edge_in a b (take i (EL.edges g)) = false
    ∧ EL.updateWall g a b s
      = (EL.mk (<[i:=(v1, v2, s)]> (EL.edges g)) (EL.vertices g), true).
Proof.
  rewrite el_hasEdge. intros (i & v1 & v2 & w & H1 & H2 & H3 & H4)%find_edge_Some.
  exists i, v1, v2, w. unfold EL.updateWall. by rewrite H1.
Qed.

Lemma el_removeEdge_missing g a b :
  EL.hasEdge g a b = false → EL.removeEdge g a b = (g, false).
Proof.
  rewrite el_hasEdge. intros H%find_edge_None. unfold EL.removeEdge.
  by rewrite H.
Qed.

Lemma el_removeEdge_found g a b :
  EL.hasEdge g a b = true →
  ∃ i v1 v2 w,
    list_find (λ e, same_edge a b e : Prop) (EL.edges g) = Some (i, (v1, v2, w))
    ∧ EL.edges g !! i = Some (v1, v2, w)
    ∧ same_edge a b (v1, v2, w) = true
    ∧ EL.removeEdge g a b
      = (EL.mk (delete i (EL.edges g)) (EL.vertices g), true).
Proof.
  rewrite el_hasEdge. intros (i & v1 & v2 & w & H1 & H2 & H3 & H4)%find_edge_Some.
  exists i, v1, v2, w. unfold EL.removeEdge. by rewrite H1.
Qed.

(** The flag read back is the flag of the first tuple that joins the pair. *)
Lemma getWallStatus_first a b (es : list Edge) i v1 v2 w :
  es !! i = Some (v1, v2, w) → same_edge a b (v1, v2, w) = true →
  edge_in a b (take i es) = false →
  list_find (λ e, same_edge a b e : Prop) es = Some (i, (v1, v2, w)).
Proof.
  intros H1 H2 H3. apply list_find_Some. split_and!; [done|by rewrite H2|].
  intros j e Hj Hlt He.
  assert (edge_in a b (take i es) = true) as Ht; [|congruence].
  apply edge_in_true. exists e. split; [|by apply Is_true_true].
  apply list_elem_of_lookup. exists j. by rewrite lookup_take_lt.
Qed.

(** ** [EdgeListGraph]: the invariant *)

Lemma el_wf_init : el_wf EL.init.
Proof. split; [constructor|done]. Qed.

Lemma el_wf_addVertex g v : el_wf g → el_wf (EL.addVertex g v).
Proof.
  intros [H1 H2]. split; [|done]. cbn.
  eapply endpoints_in_mono; [|done]. set_solver.
Qed.

Lemma el_wf_addVertices g vs : el_wf g → el_wf (EL.addVertices g vs).
Proof.
  unfold EL.addVertices. revert g.
  induction vs as [|v vs IH]; intros g H; [done|].
  cbn. by apply IH, el_wf_addVertex.
Qed.

Lemma el_wf_addEdge g a b w : el_wf g → el_wf (EL.addEdge g a b w).1.
Proof.
  intros [H1 H2]. unfold EL.addEdge.
  destruct (EL.hasVertex g a) eqn:Ea; [|done].
  destruct (EL.hasVertex g b) eqn:Eb; [|done].
  destruct (EL.hasEdge g a b) eqn:Ee; [done|]. cbn.
  apply el_hasVertex_true in Ea, Eb. rewrite el_hasEdge in Ee. split; cbn.
  - apply Forall_app. split; [done|]. by repeat constructor.
  - by apply simple_app.
Qed.

Lemma el_wf_updateWall g a b s : el_wf g → el_wf (EL.updateWall g a b s).1.
Proof.
  intros [H1 H2]. destruct (EL.hasEdge g a b) eqn:E.
  - destruct (el_updateWall_found g a b s E) as (i & v1 & v2 & w & Hi & _ & _ & ->).
    split; cbn.
    + apply Forall_insert; [done|].
      by apply (Forall_lookup_1 _ _ _ _ H1 Hi).
    + by eapply simple_insert_flag.
  - by rewrite el_updateWall_missing.
Qed.

Lemma el_wf_removeEdge g a b : el_wf g → el_wf (EL.removeEdge g a b).1.
Proof.
  intros [H1 H2]. unfold EL.removeEdge.
  destruct (list_find _ _) as [[i e]|]; [|done]. split; cbn.
  - by apply Forall_delete.
  - by apply simple_delete.
Qed.

Lemma el_wf_exec g o : el_wf g → el_wf (EL.exec g o).
Proof.
  destruct o; cbn;
    auto using el_wf_addVertex, el_wf_addVertices, el_wf_addEdge,
      el_wf_updateWall, el_wf_removeEdge.
Qed.

Lemma el_wf_run_from g ops : el_wf g → el_wf (EL.run_from g ops).
Proof.
  unfold EL.run_from. revert g.
  induction ops as [|o ops IH]; intros g H; [done|].
  cbn. by apply IH, el_wf_exec.
Qed.

Lemma el_reachable_wf g : EL.reachable g → el_wf g.
Proof. intros [ops <-]. apply el_wf_run_from, el_wf_init. Qed.

(** ** [EdgeListGraph.neighbours] *)

Lemma el_neighbours_loop_app v es es' :
  EL.neighbours_loop v (es ++ es')
  = EL.neighbours_loop v es ++ EL.neighbours_loop v es'.
Proof.
  induction es as [|[[v1 v2] w] es IH]; [done|]. cbn.
  repeat case_bool_decide; cbn; by rewrite IH.
Qed.

Lemma el_neighbours_loop_elem v w es :
  w ∈ EL.neighbours_loop v es ↔ edge_in v w es = true.
Proof.
  induction es as [|[[v1 v2] f] es IH].
  - cbn. split; [by intros ?%elem_of_nil|done].
  - unfold edge_in. cbn. fold (edge_in v w es).
    rewrite orb_true_iff, same_edge_true, <- IH.
    repeat case_bool_decide; rewrite ?elem_of_cons; intuition congruence.
Qed.

Lemma el_neighbours_loop_NoDup v es :
  simple es → NoDup (EL.neighbours_loop v es).
Proof.
  induction es as [|[[v1 v2] f] es IH]; cbn; [intros; constructor|].
  intros [H1 H2]. specialize (IH H2).
  repeat case_bool_decide; subst; try done.
  - apply NoDup_cons. split; [|done].
    rewrite el_neighbours_loop_elem. congruence.
  - apply NoDup_cons. split; [|done].
    rewrite el_neighbours_loop_elem, edge_in_sym. congruence.
Qed.

Lemma el_neighbours_loop_untouched v es :
  (∀ e, e ∈ es → touches v e = false) → EL.neighbours_loop v es = [].
Proof.
  induction es as [|[[v1 v2] f] es IH]; [done|]. intros H. cbn.
  pose proof (H (v1, v2, f) ltac:(left)) as Ht. cbn in Ht.
  apply orb_false_iff in Ht as [-> ->]. apply IH.
  intros e He. apply H. by right.
Qed.

(** ** Matrix rows *)

Lemma length_row_of v es : length (row_of v es) = length es.
Proof. apply length_fmap. Qed.

Lemma row_of_app v es e :
  row_of v (es ++ [e])
  = row_of v es ++ [if touches v e then 1%Z else 0%Z].
Proof. unfold row_of. by rewrite fmap_app. Qed.

Lemma row_of_delete v es i : row_of v (delete i es) = delete i (row_of v es).
Proof. apply list_fmap_delete. Qed.

Lemma row_of_insert_flag v es i v1 v2 w s :
  es !! i = Some (v1, v2, w) → row_of v (<[i:=(v1, v2, s)]> es) = row_of v es.
Proof.
  intros H. unfold row_of. rewrite list_fmap_insert.
  apply list_insert_id. by rewrite list_lookup_fmap, H.
Qed.

Lemma row_of_untouched v es :
  (∀ e, e ∈ es → touches v e = false) →
  row_of v es = replicate (length es) 0%Z.
Proof.
  induction es as [|e es IH]; [done|]. intros H. cbn.
  rewrite (H e) by left. f_equal. apply IH. intros e' He'. apply H. by right.
Qed.

Lemma row_of_lookup v es i e :
  es !! i = Some e →
  row_of v es !! i = Some (if touches v e then 1%Z else 0%Z).
Proof. intros H. unfold row_of. by rewrite list_lookup_fmap, H. Qed.

#[local] Arguments row_of : simpl never.

Lemma set_cell_ok mat r c x row :
  mat !! r = Some row → c < length row →
  set_cell mat r c x = Ok (<[r:=<[c:=x]> row]> mat).
Proof.
  intros H1 H2. unfold set_cell, getitem, setitem. rewrite H1. cbn.
  by rewrite decide_True.
Qed.

Lemma pop_each_ok mat i :
  Forall (λ row, i < length row) mat →
  pop_each mat i = Ok (delete i <$> mat).
Proof.
  induction 1 as [|row mat H _ IH]; [done|]. cbn. unfold pop.
  rewrite decide_True by done. cbn. by rewrite IH.
Qed.

(** ** [IncMatGraph]: consequences of the invariant *)

Lemma im_index_lt g v r :
  im_wf g → IM.vertices g !! v = Some r → r < length (IM.incidence_mat g).
Proof. intros H Hv. eapply lookup_lt_Some, wf_rows; done. Qed.

Lemma im_row_owner g r row :
  im_wf g → IM.incidence_mat g !! r = Some row →
  ∃ v, IM.vertices g !! v = Some r ∧ row = row_of v (IM.edges g).
Proof.
  intros H Hr. destruct (wf_surj g H r) as [v Hv].
  - rewrite <- (wf_height g H). by eapply lookup_lt_Some.
  - exists v. split; [done|]. rewrite (wf_rows g H v r Hv) in Hr. congruence.
Qed.

Lemma im_width g :
  im_wf g →
  Forall (λ row, length row = length (IM.edges g)) (IM.incidence_mat g).
Proof.
  intros H. apply Forall_lookup. intros r row Hr.
  destruct (im_row_owner g r row H Hr) as (v & _ & ->). apply length_row_of.
Qed.

Lemma im_untouched g v :
  im_wf g → IM.vertices g !! v = None →
  ∀ e, e ∈ IM.edges g → touches v e = false.
Proof.
  intros H Hv e He. destruct (touches v e) eqn:E; [|done].
  destruct (wf_edges g H) as [Hin _].
  pose proof (endpoints_in_touches _ _ v e Hin He E) as Hd. cbn in Hd.
  apply elem_of_dom in Hd as [r Hr]. congruence.
Qed.

(** ** [IncMatGraph]: the methods keep the invariant and act on the
    edge-list view as [EdgeListGraph] does *)

Lemma im_hasVertex g v : IM.hasVertex g v = EL.hasVertex (abs g) v.
Proof. apply bool_decide_ext. cbn. by rewrite elem_of_dom. Qed.

Lemma im_hasVertex_true g v :
  IM.hasVertex g v = true ↔ is_Some (IM.vertices g !! v).
Proof. apply bool_decide_eq_true. Qed.

Lemma im_hasVertex_false g v :
  IM.hasVertex g v = false ↔ IM.vertices g !! v = None.
Proof.
  unfold IM.hasVertex. rewrite bool_decide_eq_false.
  by rewrite eq_None_not_Some.
Qed.

Lemma im_hasEdge g a b : IM.hasEdge g a b = EL.hasEdge (abs g) a b.
Proof. by rewrite el_hasEdge. Qed.

Lemma im_getWallStatus g a b :
  IM.getWallStatus g a b = EL.getWallStatus (abs g) a b.
Proof.
  unfold IM.getWallStatus, EL.getWallStatus.
  by rewrite list_find_same_edge'.
Qed.

Lemma im_wf_init : im_wf IM.init.
Proof.
  split; cbn; try done.
  - split; [constructor|done].
  - intros r Hr. rewrite map_size_empty in Hr. lia.
Qed.

Lemma abs_addVertex g v : abs (IM.addVertex g v) = EL.addVertex (abs g) v.
Proof.
  unfold IM.addVertex, EL.addVertex, abs.
  destruct (IM.hasVertex g v) eqn:E; cbn.
  - f_equal. apply im_hasVertex_true, elem_of_dom in E.
    symmetry. apply subseteq_union_1_L. by apply singleton_subseteq_l.
  - f_equal. apply dom_insert_L.
Qed.

Lemma im_wf_addVertex g v : im_wf g → im_wf (IM.addVertex g v).
Proof.
  intros H. pose proof (abs_addVertex g v) as Habs.
  unfold IM.addVertex in *. destruct (IM.hasVertex g v) eqn:E; [done|]. cbn in *.
  apply im_hasVertex_false in E.
  split; cbn.
  - rewrite Habs. apply el_wf_addVertex, H.
  - rewrite length_app, map_size_insert_None by done. cbn.
    rewrite (wf_height g H). lia.
  - intros u u' r Hu Hu'.
    apply lookup_insert_Some in Hu as [[<- <-]|[Hne Hu]];
      apply lookup_insert_Some in Hu' as [[<- Hr]|[Hne' Hu']]; try done.
    + apply (im_index_lt g _ _ H) in Hu'. rewrite (wf_height g H) in Hu'. lia.
    + apply (im_index_lt g _ _ H) in Hu. rewrite (wf_height g H) in Hu. lia.
    + by eapply (wf_inj g H).
  - intros r Hr. rewrite map_size_insert_None in Hr by done.
    destruct (decide (r = size (IM.vertices g))) as [->|Hne].
    + exists v. apply lookup_insert_eq.
    + destruct (wf_surj g H r) as [u Hu]; [lia|]. exists u.
      rewrite lookup_insert_ne; [done|]. congruence.
  - intros u r Hu. apply lookup_insert_Some in Hu as [[<- <-]|[Hne Hu]].
    + rewrite <- (wf_height g H), lookup_app_r, Nat.sub_diag by done. cbn.
      f_equal. symmetry. apply row_of_untouched. by apply im_untouched.
    + rewrite lookup_app_l by (by eapply im_index_lt).
      by apply (wf_rows g H).
Qed.

Lemma abs_addVertices g vs : abs (IM.addVertices g vs) = EL.addVertices (abs g) vs.
Proof.
  unfold IM.addVertices, EL.addVertices. revert g.
  induction vs as [|v vs IH]; intros g; [done|].
  cbn. by rewrite IH, abs_addVertex.
Qed.

Lemma im_wf_addVertices g vs : im_wf g → im_wf (IM.addVertices g vs).
Proof.
  unfold IM.addVertices. revert g.
  induction vs as [|v vs IH]; intros g H; [done|].
  cbn. by apply IH, im_wf_addVertex.
Qed.

Lemma insert_last (l : list Z) x y : <[length l:=y]> (l ++ [x]) = l ++ [y].
Proof. rewrite insert_app_r_alt by done. by rewrite Nat.sub_diag. Qed.

Lemma touches_fst a b w : touches a (a, b, w) = true.
Proof. cbn. by rewrite bool_decide_eq_true_2. Qed.

Lemma touches_snd a b w : touches b (a, b, w) = true.
Proof. cbn. rewrite (bool_decide_eq_true_2 (b = b)) by done. apply orb_true_r. Qed.

Lemma touches_other u a b w : u ≠ a → u ≠ b → touches u (a, b, w) = false.
Proof. intros. cbn. by rewrite !bool_decide_eq_false_2. Qed.

Lemma im_addEdge_refused g a b w :
  IM.hasVertex g a = false ∨ IM.hasVertex g b = false ∨ IM.hasEdge g a b = true →
  IM.addEdge g a b w = Ok (g, false).
Proof.
  unfold IM.addEdge, IM.hasVertex. intros [-> | [-> | ->]]; cbn; [done| |].
  - by rewrite orb_true_r.
  - by destruct (_ || _).
Qed.

(** The matrix after an accepted [addEdge]: every row one cell longer,
    with 1 in the two endpoint rows. *)
Lemma im_addEdge_accepted g a b w r1 r2 :
  im_wf g →
  IM.vertices g !! a = Some r1 → IM.vertices g !! b = Some r2 →
  IM.hasEdge g a b = false →
  IM.addEdge g a b w
  = Ok (IM.mk (IM.vertices g) (IM.edges g ++ [(a, b, w)])
          (<[r2:=row_of b (IM.edges g) ++ [1%Z]]>
             (<[r1:=row_of a (IM.edges g) ++ [1%Z]]>
                ((λ row, row ++ [0%Z]) <$> IM.incidence_mat g))), true).
Proof.
  intros H Ha Hb He. unfold IM.addEdge.
  rewrite !bool_decide_eq_true_2 by (by eexists). cbn. rewrite He.
  unfold dict_getitem. rewrite Ha, Hb. cbn.
  rewrite length_app. cbn. rewrite Nat.add_sub.
  pose proof (im_index_lt g a r1 H Ha) as Hr1.
  pose proof (im_index_lt g b r2 H Hb) as Hr2.
  erewrite set_cell_ok; cycle 1.
  { by rewrite list_lookup_fmap, (wf_rows g H a r1 Ha). }
  { rewrite length_app, length_row_of. cbn. lia. }
  cbn. rewrite <- (length_row_of a (IM.edges g)) at 1. rewrite insert_last.
  destruct (decide (r1 = r2)) as [<-|Hne].
  - assert (a = b) as <- by (by eapply (wf_inj g H)).
    erewrite set_cell_ok; cycle 1.
    { by rewrite list_lookup_insert_eq by (by rewrite length_fmap). }
    { rewrite length_app, length_row_of. cbn. lia. }
    cbn. rewrite <- (length_row_of a (IM.edges g)) at 1. by rewrite insert_last.
  - erewrite set_cell_ok; cycle 1.
    { rewrite list_lookup_insert_ne by done.
      by rewrite list_lookup_fmap, (wf_rows g H b r2 Hb). }
    { rewrite length_app, length_row_of. cbn. lia. }
    cbn. rewrite <- (length_row_of b (IM.edges g)) at 1. by rewrite insert_last.
Qed.

Lemma im_wf_addEdge_accepted g a b w r1 r2 :
  im_wf g →
  IM.vertices g !! a = Some r1 → IM.vertices g !! b = Some r2 →
  IM.hasEdge g a b = false →
  im_wf (IM.mk (IM.vertices g) (IM.edges g ++ [(a, b, w)])
          (<[r2:=row_of b (IM.edges g) ++ [1%Z]]>
             (<[r1:=row_of a (IM.edges g) ++ [1%Z]]>
                ((λ row, row ++ [0%Z]) <$> IM.incidence_mat g)))).
Proof.
  intros H Ha Hb He.
  pose proof (im_index_lt g a r1 H Ha) as Hr1.
  pose proof (im_index_lt g b r2 H Hb) as Hr2.
  split; cbn.
  - pose proof (el_wf_addEdge (abs g) a b w (wf_edges g H)) as Hwf.
    rewrite el_addEdge_accepted in Hwf; [done|..].
    + apply el_hasVertex_true, elem_of_dom. by eexists.
    + apply el_hasVertex_true, elem_of_dom. by eexists.
    + by rewrite <- im_hasEdge.
  - rewrite !length_insert, length_fmap. apply (wf_height g H).
  - apply (wf_inj g H).
  - apply (wf_surj g H).
  - intros u r Hu. rewrite row_of_app.
    destruct (decide (r2 = r)) as [<-|Hne2].
    { assert (u = b) as -> by (by eapply (wf_inj g H)).
      rewrite list_lookup_insert_eq
        by (by rewrite length_insert, length_fmap).
      by rewrite touches_snd. }
    rewrite list_lookup_insert_ne by done.
    destruct (decide (r1 = r)) as [<-|Hne1].
    { assert (u = a) as -> by (by eapply (wf_inj g H)).
      rewrite list_lookup_insert_eq by (by rewrite length_fmap).
      by rewrite touches_fst. }
    rewrite list_lookup_insert_ne by done.
    rewrite list_lookup_fmap, (wf_rows g H u r Hu).
    rewrite touches_other; [done|congruence..].
Qed.

Lemma im_addEdge_sim g a b w :
  im_wf g →
  ∃ g', IM.addEdge g a b w = Ok (g', (EL.addEdge (abs g) a b w).2)
        ∧ im_wf g' ∧ abs g' = (EL.addEdge (abs g) a b w).1.
Proof.
  intros H.
  destruct (IM.hasVertex g a) eqn:Ea; cycle 1.
  { exists g. rewrite im_addEdge_refused by auto.
    rewrite el_addEdge_refused by (rewrite <- im_hasVertex; auto). done. }
  destruct (IM.hasVertex g b) eqn:Eb; cycle 1.
  { exists g. rewrite im_addEdge_refused by auto.
    rewrite el_addEdge_refused by (rewrite <- !im_hasVertex; auto). done. }
  destruct (IM.hasEdge g a b) eqn:Ee.
  { exists g. rewrite im_addEdge_refused by auto.
    rewrite el_addEdge_refused by (rewrite <- !im_hasVertex, <- im_hasEdge; auto).
    done. }
  pose proof Ea as [r1 Hr1]%im_hasVertex_true.
  pose proof Eb as [r2 Hr2]%im_hasVertex_true.
  eexists. rewrite (im_addEdge_accepted g a b w r1 r2) by done.
  rewrite el_addEdge_accepted by (by rewrite <- ?im_hasVertex, <- ?im_hasEdge).
  split_and!; [done| |done]. by apply im_wf_addEdge_accepted.
Qed.

Lemma im_removeEdge_missing g a b :
  IM.hasEdge g a b = false → IM.removeEdge g a b = Ok (g, false).
Proof.
  intros H%find_edge_None. unfold IM.removeEdge.
  by rewrite list_find_same_edge', H.
Qed.

Lemma im_removeEdge_found g a b i e :
  im_wf g →
  list_find (λ e, same_edge a b e : Prop) (IM.edges g) = Some (i, e) →
  IM.removeEdge g a b
  = Ok (IM.mk (IM.vertices g) (delete i (IM.edges g))
          (delete i <$> IM.incidence_mat g), true).
Proof.
  intros H Hf. unfold IM.removeEdge. rewrite list_find_same_edge', Hf.
  rewrite pop_each_ok; [done|].
  eapply Forall_impl; [apply (im_width g H)|]. cbn. intros row ->.
  apply list_find_Some in Hf as [Hi _]. by eapply lookup_lt_Some.
Qed.

Lemma im_wf_removeEdge_found g a b i e :
  im_wf g →
  list_find (λ e, same_edge a b e : Prop) (IM.edges g) = Some (i, e) →
  im_wf (IM.mk (IM.vertices g) (delete i (IM.edges g))
           (delete i <$> IM.incidence_mat g)).
Proof.
  intros H Hf. split; cbn.
  - pose proof (el_wf_removeEdge (abs g) a b (wf_edges g H)) as Hwf.
    unfold EL.removeEdge in Hwf. cbn in Hwf. by rewrite Hf in Hwf.
  - rewrite length_fmap. apply (wf_height g H).
  - apply (wf_inj g H).
  - apply (wf_surj g H).
  - intros u r Hu.
    by rewrite list_lookup_fmap, (wf_rows g H u r Hu), row_of_delete.
Qed.

Lemma im_removeEdge_sim g a b :
  im_wf g →
  ∃ g', IM.removeEdge g a b = Ok (g', (EL.removeEdge (abs g) a b).2)
        ∧ im_wf g' ∧ abs g' = (EL.removeEdge (abs g) a b).1.
Proof.
  intros H. unfold EL.removeEdge. cbn.
  destruct (list_find _ (IM.edges g)) as [[i e]|] eqn:Hf.
  - eexists. rewrite (im_removeEdge_found g a b i e) by done.
    split_and!; [done| |done]. by eapply im_wf_removeEdge_found.
  - exists g. rewrite im_removeEdge_missing; [done|].
    by apply find_edge_None.
Qed.

Lemma im_updateWall_abs g a b s :
  (abs (IM.updateWall g a b s).1, (IM.updateWall g a b s).2)
  = EL.updateWall (abs g) a b s.
Proof.
  unfold IM.updateWall, EL.updateWall. cbn.
  by destruct (list_find _ (IM.edges g)) as [[i [[v1 v2] w]]|].
Qed.

Lemma im_wf_updateWall g a b s : im_wf g → im_wf (IM.updateWall g a b s).1.
Proof.
  intros H.
  pose proof (el_wf_updateWall (abs g) a b s (wf_edges g H)) as Hwf.
  rewrite <- im_updateWall_abs in Hwf. cbn in Hwf.
  unfold IM.updateWall in *.
  destruct (list_find _ (IM.edges g)) as [[i [[v1 v2] w]]|] eqn:Hf; [|done].
  apply list_find_Some in Hf as [Hi _]. cbn in *.
  split; cbn; try apply H; [done|].
  intros u r Hu. rewrite (row_of_insert_flag _ _ _ _ _ w) by done.
  by apply (wf_rows g H).
Qed.

(** Every call succeeds on a well-formed object and is mirrored by
    [EdgeListGraph] on the edge-list view. *)
Lemma im_exec_sim g o :
  im_wf g →
  ∃ g', IM.exec g o = Ok g' ∧ im_wf g' ∧ abs g' = EL.exec (abs g) o.
Proof.
  intros H. destruct o as [v|vs|a b w|a b s|a b]; cbn.
  - eexists. split_and!; [done|by apply im_wf_addVertex|apply abs_addVertex].
  - eexists. split_and!; [done|by apply im_wf_addVertices|apply abs_addVertices].
  - destruct (im_addEdge_sim g a b w H) as (g' & -> & Hwf & Habs).
    by exists g'.
  - eexists. split_and!; [done|by apply im_wf_updateWall|].
    by rewrite <- im_updateWall_abs.
  - destruct (im_removeEdge_sim g a b H) as (g' & -> & Hwf & Habs).
    by exists g'.
Qed.

Lemma im_run_from_sim g ops :
  im_wf g →
  ∃ g', IM.run_from g ops = Ok g' ∧ im_wf g'
        ∧ abs g' = EL.run_from (abs g) ops.
Proof.
  revert g. induction ops as [|o ops IH]; intros g H.
  - by exists g.
  - destruct (im_exec_sim g o H) as (g1 & He & Hwf & Habs).
    destruct (IH g1 Hwf) as (g' & Hr & Hwf' & Habs').
    exists g'. cbn. rewrite He. cbn. rewrite Hr, Habs', Habs. done.
Qed.

Lemma im_run_sim ops :
  ∃ g, IM.run ops = Ok g ∧ im_wf g ∧ abs g = EL.run ops.
Proof. apply (im_run_from_sim IM.init ops), im_wf_init. Qed.

Lemma im_reachable_wf g : IM.reachable g → im_wf g.
Proof.
  intros [ops Hr]. destruct (im_run_sim ops) as (g' & Hr' & Hwf & _).
  congruence.
Qed.

(** ** [IncMatGraph.neighbours] *)

Lemma getitem_Some {A} (l : list A) i x : l !! i = Some x → getitem l i = Ok x.
Proof. unfold getitem. by intros ->. Qed.

Lemma im_neighbours_loop mat r v seen es :
  mat !! r = Some (row_of v (seen ++ es)) →
  IM.neighbours_loop mat r v (length seen) es = Ok (EL.neighbours_loop v es).
Proof.
  revert seen. induction es as [|[[v1 v2] w] es IH]; intros seen H; [done|].
  cbn [IM.neighbours_loop EL.neighbours_loop].
  rewrite (getitem_Some _ _ _ H). cbn [mbind result_bind].
  rewrite (getitem_Some _ _ (if touches v (v1, v2, w) then 1%Z else 0%Z))
    by (apply row_of_lookup; by rewrite lookup_app_r, Nat.sub_diag).
  cbn [mbind result_bind].
  specialize (IH (seen ++ [(v1, v2, w)])).
  rewrite length_app, Nat.add_1_r, <- app_assoc in IH. rewrite (IH H).
  cbn [mbind result_bind]. unfold touches.
  repeat case_bool_decide; cbn in *; congruence.
Qed.

Lemma im_neighbours_absent g v :
  IM.hasVertex g v = false → IM.neighbours g v = Ok [].
Proof. unfold IM.neighbours. by intros ->. Qed.

Lemma im_neighbours g v :
  im_wf g → IM.neighbours g v = Ok (EL.neighbours (abs g) v).
Proof.
  intros H. destruct (IM.hasVertex g v) eqn:E.
  - unfold IM.neighbours. rewrite E.
    apply im_hasVertex_true in E as [r Hr].
    unfold dict_getitem. rewrite Hr. cbn [mbind result_bind].
    apply (im_neighbours_loop _ _ _ []). by apply (wf_rows g H).
  - rewrite im_neighbours_absent by done. unfold EL.neighbours. cbn.
    rewrite el_neighbours_loop_untouched; [done|].
    apply im_untouched; [done|]. by apply im_hasVertex_false.
Qed.

(** ** Counting the 1-cells of a column *)

Section counting.
Context {A : Type} (P : A → Prop) `{!∀ x, Decision (P x)}.
Context (Q : nat → Prop) `{!∀ r, Decision (Q r)}.

(** Counting by position instead of by content. *)
Lemma count_by_position (l : list A) :
  (∀ r x, l !! r = Some x → (P x ↔ Q r)) →
  length (filter P l) = length (filter Q (seq 0 (length l))).
Proof.
  induction l as [|x l IH] using rev_ind; [done|]. intros Hl.
  rewrite length_app, Nat.add_1_r, seq_S, !filter_app, !length_app.
  rewrite Nat.add_0_l, IH; cycle 1.
  { intros r y Hr. apply Hl. by apply lookup_app_l_Some. }
  f_equal. specialize (Hl (length l) x).
  rewrite lookup_app_r, Nat.sub_diag in Hl by done. specialize (Hl eq_refl).
  rewrite !filter_cons, !filter_nil.
  destruct (decide (P x)), (decide (Q (length l))); cbn; tauto.
Qed.
End counting.

Lemma count_two_positions r1 r2 n :
  length (filter (λ r, r = r1 ∨ r = r2) (seq 0 n))
  = (if decide (r1 < n) then 1 else 0)
    + (if decide (r2 < n ∧ r2 ≠ r1) then 1 else 0).
Proof.
  induction n as [|n IH].
  - cbn. repeat case_decide; lia.
  - rewrite seq_S, filter_app, length_app, IH, Nat.add_0_l.
    rewrite filter_cons, filter_nil.
    repeat case_decide; cbn; lia.
Qed.

(** The column of an edge holds 1 exactly at the rows of its endpoints:
    two cells, or one when the endpoints coincide. *)
Lemma im_column g i v1 v2 w :
  im_wf g → IM.edges g !! i = Some (v1, v2, w) →
  ∃ r1 r2,
    IM.vertices g !! v1 = Some r1 ∧ IM.vertices g !! v2 = Some r2
    ∧ (∀ r row, IM.incidence_mat g !! r = Some row →
         row !! i = Some (if bool_decide (r = r1 ∨ r = r2) then 1%Z else 0%Z))
    ∧ ones_in_column (IM.incidence_mat g) i
      = (if bool_decide (v1 = v2) then 1 else 2).
Proof.
  intros H Hi.
  destruct (wf_edges g H) as [Hin _].
  pose proof (Forall_lookup_1 _ _ _ _ Hin Hi) as [Hd1 Hd2]. cbn in Hd1, Hd2.
  apply elem_of_dom in Hd1 as [r1 Hr1], Hd2 as [r2 Hr2].
  exists r1, r2.
  assert (∀ r row, IM.incidence_mat g !! r = Some row →
    row !! i = Some (if bool_decide (r = r1 ∨ r = r2) then 1%Z else 0%Z))
    as Hcell.
  { intros r row Hr.
    destruct (im_row_owner g r row H Hr) as (u & Hu & ->).
    rewrite (row_of_lookup _ _ _ _ Hi). f_equal. unfold touches.
    assert (u = v1 ↔ r = r1) as E1.
    { split; [intros ->; congruence|intros ->; by eapply (wf_inj g H)]. }
    assert (u = v2 ↔ r = r2) as E2.
    { split; [intros ->; congruence|intros ->; by eapply (wf_inj g H)]. }
    repeat case_bool_decide; cbn; try done; intuition congruence. }
  split_and!; [done..|].
  unfold ones_in_column.
  rewrite (count_by_position _ (λ r, r = r1 ∨ r = r2)); cycle 1.
  { intros r row Hr. rewrite (Hcell r row Hr).
    case_bool_decide; split; try done; intros [=]. }
  rewrite count_two_positions.
  pose proof (im_index_lt g v1 r1 H Hr1).
  pose proof (im_index_lt g v2 r2 H Hr2).
  assert (v1 = v2 ↔ r1 = r2) as E.
  { split; [intros ->; congruence|intros ->; by eapply (wf_inj g H)]. }
  destruct E as [E1 E2].
  case_bool_decide as Hv; repeat case_decide; try lia; exfalso;
    first [specialize (E1 Hv); lia | apply Hv, E2; lia].
Qed.

(** ** Reading back after a change *)

Lemma find_after_append a b w (es : list Edge) :
  edge_in a b es = false →
  list_find (λ e, same_edge a b e : Prop) (es ++ [(a, b, w)])
  = Some (length es, (a, b, w)).
Proof.
  intros H. apply getWallStatus_first.
  - by rewrite lookup_app_r, Nat.sub_diag.
  - apply same_edge_true. auto.
  - by rewrite take_app_length.
Qed.

Lemma find_after_update a b (es : list Edge) i v1 v2 w s :
  es !! i = Some (v1, v2, w) → same_edge a b (v1, v2, w) = true →
  edge_in a b (take i es) = false →
  list_find (λ e, same_edge a b e : Prop) (<[i:=(v1, v2, s)]> es)
  = Some (i, (v1, v2, s)).
Proof.
  intros H1 H2 H3. apply getWallStatus_first.
  - apply list_lookup_insert_eq. by eapply lookup_lt_Some.
  - done.
  - by rewrite take_insert_ge.
Qed.

Lemma scenario_im : IM.run scenario = Ok im_scenario.
Proof. vm_compute. reflexivity. Qed.

Lemma el_scenario_reachable : EL.reachable el_scenario.
Proof. exists scenario. vm_compute. reflexivity. Defined.

Lemma im_scenario_reachable : IM.reachable im_scenario.
Proof. exists scenario. vm_compute. reflexivity. Defined.

(** * The claims *)

(** C1.  Cross-backing equivalence.  Let any sequence [ops] of
    [addVertex]/[addVertices]/[addEdge]/[updateWall]/[removeEdge] calls be
    made on a fresh [EdgeListGraph] and on a fresh [IncMatGraph].  After
    every prefix [take n ops] the incidence-matrix object has raised
    nothing, and the two objects agree on [hasVertex] for every vertex, on
    [hasEdge] and [getWallStatus] for every pair, and on [neighbours] of
    every vertex, compared as sets. *)
Theorem cross_backing_equivalence (ops : list op) (n : nat) :
  ∃ im,
    IM.run (take n ops) = Ok im
    ∧ (∀ v, IM.hasVertex im v = EL.hasVertex (EL.run (take n ops)) v)
    ∧ (∀ v1 v2,
         IM.hasEdge im v1 v2 = EL.hasEdge (EL.run (take n ops)) v1 v2
         ∧ IM.getWallStatus im v1 v2
           = EL.getWallStatus (EL.run (take n ops)) v1 v2)
    ∧ (∀ v, ∃ ns,
         IM.neighbours im v = Ok ns
         ∧ list_to_set ns
           =@{gset Coordinates}
             list_to_set (EL.neighbours (EL.run (take n ops)) v)).
Proof.
  destruct (im_run_sim (take n ops)) as (im & Hrun & Hwf & Habs).
  exists im. rewrite <- Habs. split_and!; [done|..].
  - apply im_hasVertex.
  - intros v1 v2. split; [apply im_hasEdge|apply im_getWallStatus].
  - intros v. exists (EL.neighbours (abs im) v). split; [|done].
    by apply im_neighbours.
Qed.

(** C2, as stated, fails: a self-loop is accepted by [addEdge], and its
    column holds a single 1.  After [addVertex(A); addEdge(A, A)] the
    matrix is [[1]], so column 0 does not hold two 1-cells. *)
Lemma self_loop_column_not_two :
  ∃ g, IM.run [AddVertex A; AddEdge A A false] = Ok g
       ∧ IM.incidence_mat g = [[1%Z]]
       ∧ ¬ two_ones_per_column g.
Proof.
  eexists. split; [vm_compute; reflexivity|]. split; [reflexivity|].
  intros (_ & _ & H).
  destruct (H 0 A A false eq_refl) as [Hcount _].
  vm_compute in Hcount. discriminate.
Qed.

(** C2, amended.  After every sequence of calls made on a fresh
    [IncMatGraph], nothing has been raised and the matrix has one row per
    vertex and, in every row, one cell per edge.  The column of every edge
    holds 1 at the rows of the edge's endpoints and 0 in every other row:
    two 1-cells when the endpoints differ, one when they coincide. *)
Theorem matrix_shape (ops : list op) :
  ∃ g,
    IM.run ops = Ok g
    ∧ length (IM.incidence_mat g) = size (IM.vertices g)
    ∧ Forall (λ row, length row = length (IM.edges g)) (IM.incidence_mat g)
    ∧ ∀ i v1 v2 w, IM.edges g !! i = Some (v1, v2, w) →
        ∃ r1 r2,
          IM.vertices g !! v1 = Some r1 ∧ IM.vertices g !! v2 = Some r2
          ∧ (∀ r row, IM.incidence_mat g !! r = Some row →
               row !! i
               = Some (if bool_decide (r = r1 ∨ r = r2) then 1%Z else 0%Z))
          ∧ ones_in_column (IM.incidence_mat g) i
            = (if bool_decide (v1 = v2) then 1 else 2).
Proof.
  destruct (im_run_sim ops) as (g & Hrun & Hwf & _).
  exists g. split_and!; [done|apply (wf_height g Hwf)|by apply im_width|].
  intros i v1 v2 w Hi. by apply (im_column g i v1 v2 w).
Qed.

Lemma matrix_shape_witness :
  ∃ g, IM.run scenario = Ok g
       ∧ ones_in_column (IM.incidence_mat g) 1 = 2.
Proof.
  destruct (matrix_shape scenario) as (g & Hrun & _ & _ & H).
  exists g. split; [done|].
  assert (g = im_scenario) as -> by (rewrite scenario_im in Hrun; congruence).
  destruct (H 1 A C false eq_refl) as (r1 & r2 & _ & _ & _ & Hc).
  exact Hc.
Defined.

Lemma el_hasEdge_sym g a b : EL.hasEdge g a b = EL.hasEdge g b a.
Proof. rewrite !el_hasEdge. apply edge_in_sym. Qed.

Lemma im_hasEdge_sym g a b : IM.hasEdge g a b = IM.hasEdge g b a.
Proof. rewrite !im_hasEdge. apply el_hasEdge_sym. Qed.

(** What an accepted [addEdge] leaves behind, on the edge collection. *)
Lemma el_addEdge_after g a b w :
  EL.hasEdge g a b = false →
  let g' := EL.mk (EL.edges g ++ [(a, b, w)]) (EL.vertices g) in
  EL.hasEdge g' a b = true ∧ EL.hasEdge g' b a = true
  ∧ EL.getWallStatus g' a b = w.
Proof.
  rewrite el_hasEdge. intros H g'.
  assert (edge_in a b (EL.edges g') = true) as He.
  { unfold g'. cbn. rewrite edge_in_app. apply orb_true_iff. right.
    unfold edge_in. cbn. apply orb_true_iff. left. apply same_edge_true. auto. }
  rewrite !el_hasEdge, (edge_in_sym b a), He. split_and!; [done..|].
  unfold EL.getWallStatus, g'. cbn. by rewrite find_after_append.
Qed.



(** C4.  [neighbours] of both classes, on objects reached from a fresh
    one: the returned list has no duplicates and holds exactly the
    vertices [w] for which [hasEdge(v, w)] is true.  [IncMatGraph]
    raises nothing, and returns the empty list when [v] is not a
    vertex. *)
Theorem neighbours_contract (el : EL.graph) (im : IM.graph) (v : Coordinates) :
  EL.reachable el → IM.reachable im →
  (NoDup (EL.neighbours el v)
   ∧ ∀ w, w ∈ EL.neighbours el v ↔ EL.hasEdge el v w = true)
  ∧ ∃ ns,
      IM.neighbours im v = Ok ns
      ∧ NoDup ns
      ∧ (∀ w, w ∈ ns ↔ IM.hasEdge im v w = true)
      ∧ (IM.hasVertex im v = false → ns = []).
Proof.
  intros [_ Hel]%el_reachable_wf Him%im_reachable_wf. split.
  - split; [by apply el_neighbours_loop_NoDup|].
    intros w. rewrite el_hasEdge. apply el_neighbours_loop_elem.
  - exists (EL.neighbours (abs im) v).
    destruct (wf_edges im Him) as [_ Hs].
    split_and!.
    + by apply im_neighbours.
    + by apply el_neighbours_loop_NoDup.
    + intros w. rewrite im_hasEdge, el_hasEdge. apply el_neighbours_loop_elem.
    + intros Hv. apply im_neighbours_absent in Hv.
      rewrite (im_neighbours im v Him) in Hv. congruence.
Qed.

Lemma neighbours_contract_witness :
  EL.reachable el_scenario ∧ IM.reachable im_scenario
  ∧ NoDup (EL.neighbours el_scenario A)
  ∧ ∃ ns, IM.neighbours im_scenario A = Ok ns ∧ NoDup ns.
Proof.
  split; [exact el_scenario_reachable|].
  split; [exact im_scenario_reachable|].
  destruct (neighbours_contract el_scenario im_scenario A
              el_scenario_reachable im_scenario_reachable)
    as [[Hel _] (ns & Hns & Hnd & _)].
  split; [exact Hel|]. exists ns. by split.
Defined.

(** C5.  Edge lookup is symmetric in both classes, in every state:
    [hasEdge] and [getWallStatus] give the same answer for [(v1, v2)] and
    [(v2, v1)]; when the edge exists, [updateWall] succeeds in either
    order, with the same effect, and the flag read back in either order
    is the new one. *)
Theorem lookup_symmetric (el : EL.graph) (im : IM.graph)
    (v1 v2 : Coordinates) (s : bool) :
  (EL.hasEdge el v1 v2 = EL.hasEdge el v2 v1
   ∧ EL.getWallStatus el v1 v2 = EL.getWallStatus el v2 v1
   ∧ (EL.hasEdge el v1 v2 = true →
      ∃ el', EL.updateWall el v1 v2 s = (el', true)
        ∧ EL.updateWall el v2 v1 s = (el', true)
        ∧ EL.getWallStatus el' v1 v2 = s
        ∧ EL.getWallStatus el' v2 v1 = s))
  ∧ (IM.hasEdge im v1 v2 = IM.hasEdge im v2 v1
     ∧ IM.getWallStatus im v1 v2 = IM.getWallStatus im v2 v1
     ∧ (IM.hasEdge im v1 v2 = true →
        ∃ im', IM.updateWall im v1 v2 s = (im', true)
          ∧ IM.updateWall im v2 v1 s = (im', true)
          ∧ IM.getWallStatus im' v1 v2 = s
          ∧ IM.getWallStatus im' v2 v1 = s)).
Proof.
  assert (∀ g, EL.getWallStatus g v1 v2 = EL.getWallStatus g v2 v1) as Hsym.
  { intros g. unfold EL.getWallStatus. by rewrite find_edge_sym. }
  assert (∀ g, EL.hasEdge g v1 v2 = true →
    ∃ g', EL.updateWall g v1 v2 s = (g', true)
      ∧ EL.updateWall g v2 v1 s = (g', true)
      ∧ EL.getWallStatus g' v1 v2 = s ∧ EL.getWallStatus g' v2 v1 = s) as Hup.
  { intros g H.
    destruct (el_updateWall_found g v1 v2 s H)
      as (i & a & b & w & Hi & Hm & Ht & Hu).
    eexists. split; [exact Hu|].
    assert (EL.updateWall g v2 v1 s = EL.updateWall g v1 v2 s) as ->.
    { unfold EL.updateWall. by rewrite find_edge_sym. }
    split; [exact Hu|].
    split; unfold EL.getWallStatus; cbn; [|rewrite (find_edge_sym v2 v1)];
      by rewrite (find_after_update v1 v2 _ i a b w s). }
  split; split_and!.
  - apply el_hasEdge_sym.
  - apply Hsym.
  - apply Hup.
  - apply im_hasEdge_sym.
  - rewrite !im_getWallStatus. apply Hsym.
  - rewrite im_hasEdge. intros H.
    destruct (Hup (abs im) H) as (g' & H1 & H2 & H3 & H4).
    rewrite <- im_updateWall_abs in H1, H2.
    exists (IM.updateWall im v1 v2 s).1.
    assert (IM.updateWall im v2 v1 s = IM.updateWall im v1 v2 s) as ->.
    { unfold IM.updateWall. by rewrite find_edge_sym. }
    injection H1 as H1 H1'. rewrite !im_getWallStatus, H1.
    split_and!; try done; destruct (IM.updateWall im v1 v2 s) as [? ?];
      cbn in *; by subst.
Qed.

Lemma lookup_symmetric_witness :
  ∃ el' im',
    EL.updateWall el_scenario B A false = (el', true)
    ∧ IM.updateWall im_scenario B A false = (im', true)
    ∧ EL.getWallStatus el' A B = false
    ∧ IM.getWallStatus im' A B = false.
Proof.
  destruct (lookup_symmetric el_scenario im_scenario B A false)
    as [(_ & _ & Hel) (_ & _ & Him)].
  destruct Hel as (el' & H1 & _ & _ & H2); [reflexivity|].
  destruct Him as (im' & H3 & _ & _ & H4); [reflexivity|].
  by exists el', im'.
Defined.

Lemma el_getWallStatus_missing g a b :
  EL.hasEdge g a b = false → EL.getWallStatus g a b = false.
Proof.
  rewrite el_hasEdge. intros H%find_edge_None. unfold EL.getWallStatus.
  by rewrite H.
Qed.

(** C6.  [removeEdge] of both classes, on objects reached from a fresh
    one.  When an edge joins [v1] and [v2], the call returns [True] and
    deletes one tuple, which joins that pair, and nothing else; in
    [IncMatGraph] the column of that tuple is removed from every row of
    the matrix.  Afterwards [hasEdge] and [getWallStatus] are [False]
    for the pair, [neighbours(v1)] does not list [v2], and a second call
    returns [False].  When no edge joins them, the call returns [False]
    and the object is as it was.  [IncMatGraph] raises nothing. *)
Theorem removeEdge_contract (el : EL.graph) (im : IM.graph)
    (v1 v2 : Coordinates) :
  EL.reachable el → IM.reachable im →
  ((EL.hasEdge el v1 v2 = true →
    ∃ el' i a b w,
      EL.removeEdge el v1 v2 = (el', true)
      ∧ EL.edges el !! i = Some (a, b, w)
      ∧ ((a = v1 ∧ b = v2) ∨ (a = v2 ∧ b = v1))
      ∧ EL.edges el' = delete i (EL.edges el)
      ∧ EL.vertices el' = EL.vertices el
      ∧ EL.hasEdge el' v1 v2 = false
      ∧ EL.getWallStatus el' v1 v2 = false
      ∧ (v2 ∉ EL.neighbours el' v1)
      ∧ EL.removeEdge el' v1 v2 = (el', false))
   ∧ (EL.hasEdge el v1 v2 = false → EL.removeEdge el v1 v2 = (el, false)))
  ∧ ((IM.hasEdge im v1 v2 = true →
      ∃ im' i a b w,
        IM.removeEdge im v1 v2 = Ok (im', true)
        ∧ IM.edges im !! i = Some (a, b, w)
        ∧ ((a = v1 ∧ b = v2) ∨ (a = v2 ∧ b = v1))
        ∧ IM.edges im' = delete i (IM.edges im)
        ∧ IM.vertices im' = IM.vertices im
        ∧ IM.incidence_mat im' = delete i <$> IM.incidence_mat im
        ∧ IM.hasEdge im' v1 v2 = false
        ∧ IM.getWallStatus im' v1 v2 = false
        ∧ (∃ ns, IM.neighbours im' v1 = Ok ns ∧ v2 ∉ ns)
        ∧ IM.removeEdge im' v1 v2 = Ok (im', false))
     ∧ (IM.hasEdge im v1 v2 = false →
        IM.removeEdge im v1 v2 = Ok (im, false))).
Proof.
  intros [_ Hel]%el_reachable_wf Him%im_reachable_wf. split; split.
  - intros H.
    destruct (el_removeEdge_found el v1 v2 H) as (i & a & b & w & Hf & Hi & Hm & Hr).
    pose proof (simple_delete_found v1 v2 _ i _ Hel Hf) as Hgone.
    eexists _, i, a, b, w. split; [exact Hr|]. cbn.
    apply same_edge_true in Hm.
    assert (EL.hasEdge (EL.mk (delete i (EL.edges el)) (EL.vertices el)) v1 v2
            = false) as Hno by (by rewrite el_hasEdge).
    split_and!; try done.
    + by apply el_getWallStatus_missing.
    + unfold EL.neighbours. cbn. rewrite el_neighbours_loop_elem. congruence.
    + by apply el_removeEdge_missing.
  - apply el_removeEdge_missing.
  - intros H. rewrite im_hasEdge in H.
    destruct (el_removeEdge_found (abs im) v1 v2 H)
      as (i & a & b & w & Hf & Hi & Hm & _). cbn in Hf, Hi.
    destruct (wf_edges im Him) as [_ Hs]. cbn in Hs.
    pose proof (simple_delete_found v1 v2 _ i _ Hs Hf) as Hgone.
    pose proof (im_wf_removeEdge_found im v1 v2 i _ Him Hf) as Hwf'.
    eexists _, i, a, b, w.
    rewrite (im_removeEdge_found im v1 v2 i _ Him Hf).
    split; [done|]. cbn. apply same_edge_true in Hm.
    assert (IM.hasEdge (IM.mk (IM.vertices im) (delete i (IM.edges im))
              (delete i <$> IM.incidence_mat im)) v1 v2 = false) as Hno by done.
    split_and!; try done.
    + rewrite im_getWallStatus. apply el_getWallStatus_missing.
      by rewrite <- im_hasEdge.
    + eexists. split; [by apply im_neighbours|].
      unfold EL.neighbours. cbn. rewrite el_neighbours_loop_elem. congruence.
    + by apply im_removeEdge_missing.
  - apply im_removeEdge_missing.
Qed.

Lemma removeEdge_contract_witness :
  EL.reachable el_scenario ∧ IM.reachable im_scenario
  ∧ (∃ el', EL.removeEdge el_scenario A C = (el', true)
       ∧ EL.removeEdge el' A C = (el', false))
  ∧ (∃ im', IM.removeEdge im_scenario A C = Ok (im', true)
       ∧ IM.incidence_mat im' = [[1]; [1]; [0]]%Z
       ∧ IM.neighbours im' A = Ok [B]
       ∧ IM.removeEdge im' A C = Ok (im', false))
  ∧ IM.removeEdge im_scenario B C = Ok (im_scenario, false).
Proof.
  split; [exact el_scenario_reachable|].
  split; [exact im_scenario_reachable|].
  destruct (removeEdge_contract el_scenario im_scenario A C
              el_scenario_reachable im_scenario_reachable)
    as [[Hel _] [Him _]].
  destruct (removeEdge_contract el_scenario im_scenario B C
              el_scenario_reachable im_scenario_reachable)
    as [_ [_ Hmiss]].
  split_and!.
  - destruct Hel as (el' & i & a & b & w & H1 & _ & _ & _ & _ & _ & _ & _ & H2);
      [reflexivity|]. by exists el'.
  - destruct Him
      as (im' & i & a & b & w & H1 & Hi & Hm & He & Hv & Hmat & _ & _ & _ & H2);
      [reflexivity|].
    exists im'. split; [exact H1|].
    assert (i = 1) as ->.
    { destruct i as [|[|i]]; [|done|by destruct i].
      injection Hi as <- <- <-. by destruct Hm as [[_ [=]]|[[=] _]]. }
    split; [by rewrite Hmat|]. split; [|exact H2].
    destruct im' as [vs es mat]. cbn in He, Hv, Hmat. by subst.
  - apply Hmiss. reflexivity.
Defined.

Lemma im_updateWall_missing g a b s :
  IM.hasEdge g a b = false → IM.updateWall g a b s = (g, false).
Proof.
  intros H%find_edge_None. unfold IM.updateWall. by rewrite H.
Qed.

Lemma im_updateWall_found g a b s :
  IM.hasEdge g a b = true →
  ∃ i v1 v2 w,
    IM.edges g !! i = Some (v1, v2, w)
    ∧ same_edge a b (v1, v2, w) = true
    ∧ IM.updateWall g a b s
      = (IM.mk (IM.vertices g) (<[i:=(v1, v2, s)]> (IM.edges g))
           (IM.incidence_mat g), true).
Proof.
  intros (i & v1 & v2 & w & H1 & H2 & H3 & H4)%find_edge_Some.
  exists i, v1, v2, w. unfold IM.updateWall. by rewrite H1.
Qed.

(** C7.  [updateWall] of both classes, in every state.  When no edge
    joins [v1] and [v2] the call returns [False] and the object (vertices,
    tuples, flags, matrix) is as it was.  When an edge joins them the call
    returns [True] and rewrites one tuple, which joins that pair, keeping
    its endpoints and setting its flag to [status]; nothing else
    changes. *)
Theorem updateWall_contract (el : EL.graph) (im : IM.graph)
    (v1 v2 : Coordinates) (status : bool) :
  ((EL.hasEdge el v1 v2 = false →
    EL.updateWall el v1 v2 status = (el, false))
   ∧ (EL.hasEdge el v1 v2 = true →
      ∃ i a b w,
        EL.edges el !! i = Some (a, b, w)
        ∧ ((a = v1 ∧ b = v2) ∨ (a = v2 ∧ b = v1))
        ∧ EL.updateWall el v1 v2 status
          = (EL.mk (<[i:=(a, b, status)]> (EL.edges el)) (EL.vertices el),
             true)))
  ∧ ((IM.hasEdge im v1 v2 = false →
      IM.updateWall im v1 v2 status = (im, false))
     ∧ (IM.hasEdge im v1 v2 = true →
        ∃ i a b w,
          IM.edges im !! i = Some (a, b, w)
          ∧ ((a = v1 ∧ b = v2) ∨ (a = v2 ∧ b = v1))
          ∧ IM.updateWall im v1 v2 status
            = (IM.mk (IM.vertices im) (<[i:=(a, b, status)]> (IM.edges im))
                 (IM.incidence_mat im), true))).
Proof.
  split; split.
  - apply el_updateWall_missing.
  - intros H.
    destruct (el_updateWall_found el v1 v2 status H)
      as (i & a & b & w & Hi & Hm%same_edge_true & _ & Hu).
    by exists i, a, b, w.
  - apply im_updateWall_missing.
  - intros H.
    destruct (im_updateWall_found im v1 v2 status H)
      as (i & a & b & w & Hi & Hm%same_edge_true & Hu).
    by exists i, a, b, w.
Qed.

Lemma updateWall_contract_witness :
  EL.updateWall el_scenario B C true = (el_scenario, false)
  ∧ IM.updateWall im_scenario B C true = (im_scenario, false)
  ∧ (∃ el', EL.updateWall el_scenario A B false = (el', true))
  ∧ (∃ im', IM.updateWall im_scenario A B false = (im', true)).
Proof.
  destruct (updateWall_contract el_scenario im_scenario B C true)
    as [[H1 _] [H2 _]].
  destruct (updateWall_contract el_scenario im_scenario A B false)
    as [[_ H3] [_ H4]].
  split_and!.
  - apply H1. reflexivity.
  - apply H2. reflexivity.
  - destruct H3 as (i & a & b & w & _ & _ & H); [reflexivity|]. by eexists.
  - destruct H4 as (i & a & b & w & _ & _ & H); [reflexivity|]. by eexists.
Defined.

(** ** The vertex set only grows by the vertices that are added *)

Lemma el_addVertices_vertices g ls v :
  v ∈ EL.vertices (EL.addVertices g ls) ↔ v ∈ ls ∨ v ∈ EL.vertices g.
Proof.
  unfold EL.addVertices. revert g.
  induction ls as [|l ls IH]; intros g; cbn.
  - rewrite elem_of_nil. tauto.
  - rewrite IH, elem_of_cons. cbn. rewrite elem_of_union, elem_of_singleton.
    tauto.
Qed.

Lemma el_exec_vertices g o v :
  ¬ adds v o → v ∈ EL.vertices (EL.exec g o) → v ∈ EL.vertices g.
Proof.
  destruct o as [l|ls|a b w|a b s|a b]; cbn; intros Hn.
  - rewrite elem_of_union, elem_of_singleton. intros [->|]; done.
  - rewrite el_addVertices_vertices. tauto.
  - unfold EL.addEdge. by repeat case_match.
  - unfold EL.updateWall. by repeat case_match.
  - unfold EL.removeEdge. by repeat case_match.
Qed.

Lemma el_run_from_vertices g ops v :
  Forall (λ o, ¬ adds v o) ops →
  v ∈ EL.vertices (EL.run_from g ops) → v ∈ EL.vertices g.
Proof.
  unfold EL.run_from. intros H. revert g.
  induction H as [|o ops Ho _ IH]; intros g; [done|].
  cbn. intros Hv%IH. by eapply el_exec_vertices.
Qed.

Lemma el_addVertex_again g v :
  EL.hasVertex g v = true → EL.addVertex g v = g.
Proof.
  intros H%el_hasVertex_true. destruct g as [es vs]. unfold EL.addVertex.
  cbn in *. f_equal. apply subseteq_union_1_L. by apply singleton_subseteq_l.
Qed.

Lemma el_hasVertex_addVertex g v : EL.hasVertex (EL.addVertex g v) v = true.
Proof.
  apply el_hasVertex_true. cbn. apply elem_of_union_l. by apply elem_of_singleton.
Qed.

Lemma im_addVertex_again g v :
  IM.hasVertex g v = true → IM.addVertex g v = g.
Proof. unfold IM.addVertex. by intros ->. Qed.

Lemma im_hasVertex_addVertex g v : IM.hasVertex (IM.addVertex g v) v = true.
Proof. rewrite im_hasVertex, abs_addVertex. apply el_hasVertex_addVertex. Qed.

(** C8.  [addVertex] of both classes.  On the object reached by calls
    none of which adds [v], [hasVertex(v)] is [False].  After
    [addVertex(v)], in any state, [hasVertex(v)] is [True], and it stays
    [True] after a second [addVertex(v)].  [addVertex(v)] on an object
    that has [v] leaves the whole object as it is: for [IncMatGraph] the
    index dictionary, and so the row of [v], and the matrix included. *)
Theorem addVertex_contract (el : EL.graph) (im : IM.graph) (ops : list op)
    (v : Coordinates) :
  Forall (λ o, ¬ adds v o) ops →
  (EL.hasVertex (EL.run ops) v = false
   ∧ EL.hasVertex (EL.addVertex el v) v = true
   ∧ EL.hasVertex (EL.addVertex (EL.addVertex el v) v) v = true
   ∧ EL.addVertex (EL.addVertex el v) v = EL.addVertex el v
   ∧ (EL.hasVertex el v = true → EL.addVertex el v = el))
  ∧ ((∃ g, IM.run ops = Ok g ∧ IM.hasVertex g v = false)
     ∧ IM.hasVertex (IM.addVertex im v) v = true
     ∧ IM.hasVertex (IM.addVertex (IM.addVertex im v) v) v = true
     ∧ IM.addVertex (IM.addVertex im v) v = IM.addVertex im v
     ∧ (IM.hasVertex im v = true → IM.addVertex im v = im)).
Proof.
  intros Hops.
  assert (EL.hasVertex (EL.run ops) v = false) as Hfresh.
  { apply bool_decide_eq_false. intros Hv.
    apply (el_run_from_vertices _ _ _ Hops) in Hv. cbn in Hv.
    by apply not_elem_of_empty in Hv. }
  split; split_and!.
  - done.
  - apply el_hasVertex_addVertex.
  - apply el_hasVertex_addVertex.
  - apply el_addVertex_again, el_hasVertex_addVertex.
  - apply el_addVertex_again.
  - destruct (im_run_sim ops) as (g & Hrun & _ & Habs). exists g.
    split; [done|]. by rewrite im_hasVertex, Habs.
  - apply im_hasVertex_addVertex.
  - apply im_hasVertex_addVertex.
  - apply im_addVertex_again, im_hasVertex_addVertex.
  - apply im_addVertex_again.
Qed.

Lemma addVertex_contract_witness :
  Forall (λ o, ¬ adds (1, 1)%Z o) scenario
  ∧ EL.hasVertex (EL.run scenario) (1, 1)%Z = false
  ∧ (∃ g, IM.run scenario = Ok g ∧ IM.hasVertex g (1, 1)%Z = false)
  ∧ IM.addVertex im_scenario A = im_scenario.
Proof.
  assert (Forall (λ o, ¬ adds (1, 1)%Z o) scenario) as Hops.
  { repeat constructor; cbn; try tauto.
    intros H. repeat (apply elem_of_cons in H as [H|H]; [discriminate|]).
    by apply elem_of_nil in H. }
  split; [exact Hops|].
  destruct (addVertex_contract el_scenario im_scenario scenario (1, 1)%Z Hops)
    as [(H1 & _) (H2 & _)].
  destruct (addVertex_contract el_scenario im_scenario [] A
              (Forall_nil_2 _))
    as [_ (_ & _ & _ & _ & H3)].
  split_and!; [exact H1|exact H2|]. apply H3. reflexivity.
Defined.

(** C9.  In every state reached from a fresh object by calls of the
    interface, both endpoints of every stored tuple are vertices, in both
    classes. *)
Theorem endpoints_are_vertices (el : EL.graph) (im : IM.graph) :
  EL.reachable el → IM.reachable im →
  (∀ a b w, (a, b, w) ∈ EL.edges el →
     EL.hasVertex el a = true ∧ EL.hasVertex el b = true)
  ∧ (∀ a b w, (a, b, w) ∈ IM.edges im →
       IM.hasVertex im a = true ∧ IM.hasVertex im b = true).
Proof.
  intros [Hel _]%el_reachable_wf Him%im_reachable_wf. split.
  - intros a b w He. rewrite !el_hasVertex_true.
    by apply (proj1 (Forall_forall _ _) Hel (a, b, w)).
  - intros a b w He. rewrite !im_hasVertex, !el_hasVertex_true.
    destruct (wf_edges im Him) as [Hin _].
    by apply (proj1 (Forall_forall _ _) Hin (a, b, w)).
Qed.

Lemma endpoints_are_vertices_witness :
  EL.reachable el_scenario ∧ IM.reachable im_scenario
  ∧ EL.hasVertex el_scenario C = true ∧ IM.hasVertex im_scenario C = true.
Proof.
  split; [exact el_scenario_reachable|].
  split; [exact im_scenario_reachable|].
  destruct (endpoints_are_vertices el_scenario im_scenario
              el_scenario_reachable im_scenario_reachable) as [Hel Him].
  split.
  - apply (Hel A C false). right. left.
  - apply (Him A C false). right. left.
Defined.

Lemma filter_eq_absent (v : Coordinates) (l : list Coordinates) :
  v ∉ l → filter (λ w, w = v) l = [].
Proof.
  induction l as [|x l IH]; [done|].
  intros [Hx Hl]%not_elem_of_cons. rewrite filter_cons_False by congruence.
  by apply IH.
Qed.

(** After a self-loop at [v] is appended to a collection that had none,
    [v] is listed once among its neighbours. *)
Lemma el_self_loop_once v w es :
  edge_in v v es = false →
  length (filter (λ x, x = v) (EL.neighbours_loop v (es ++ [(v, v, w)]))) = 1.
Proof.
  intros H. rewrite el_neighbours_loop_app, filter_app, length_app.
  rewrite filter_eq_absent.
  - cbn. rewrite bool_decide_eq_true_2 by done.
    by rewrite filter_cons_True, filter_nil.
  - rewrite el_neighbours_loop_elem. congruence.
Qed.

(** C10.  A self-loop is accepted by both classes.  When [v] is a vertex
    and no edge joins [v] to itself, [addEdge(v, v, wall)] returns [True];
    afterwards [hasEdge(v, v)] is [True] and [neighbours(v)] lists [v]
    once.  In [IncMatGraph], reached from a fresh object, the column of
    the new edge holds 1 in the row of [v] and 0 in every other row: one
    1-cell. *)
Theorem self_loop_accepted (el : EL.graph) (im : IM.graph) (v : Coordinates)
    (wall : bool) :
  IM.reachable im →
  (EL.hasVertex el v = true → EL.hasEdge el v v = false →
   ∃ el',
     EL.addEdge el v v wall = (el', true)
     ∧ EL.hasEdge el' v v = true
     ∧ length (filter (λ x, x = v) (EL.neighbours el' v)) = 1)
  ∧ (IM.hasVertex im v = true → IM.hasEdge im v v = false →
     ∃ im' ns r,
       IM.addEdge im v v wall = Ok (im', true)
       ∧ IM.hasEdge im' v v = true
       ∧ IM.neighbours im' v = Ok ns
       ∧ length (filter (λ x, x = v) ns) = 1
       ∧ IM.edges im' !! length (IM.edges im) = Some (v, v, wall)
       ∧ IM.vertices im' !! v = Some r
       ∧ (∀ r' row, IM.incidence_mat im' !! r' = Some row →
            row !! length (IM.edges im)
            = Some (if bool_decide (r' = r) then 1%Z else 0%Z))
       ∧ ones_in_column (IM.incidence_mat im') (length (IM.edges im)) = 1).
Proof.
  intros Him%im_reachable_wf. split.
  - intros Hv He. eexists. rewrite el_addEdge_accepted by done.
    split_and!; [done|by apply el_addEdge_after|].
    unfold EL.neighbours. cbn. apply el_self_loop_once.
    by rewrite <- el_hasEdge.
  - intros Hv He. pose proof Hv as [r Hr]%im_hasVertex_true.
    pose proof (im_wf_addEdge_accepted im v v wall r r Him Hr Hr He) as Hwf'.
    eexists _, _, r. rewrite (im_addEdge_accepted im v v wall r r) by done.
    rewrite im_hasEdge in He.
    assert ((IM.edges im ++ [(v, v, wall)]) !! length (IM.edges im)
            = Some (v, v, wall)) as Hlast
      by (by rewrite lookup_app_r, Nat.sub_diag).
    split_and!; try done.
    + rewrite im_hasEdge.
      by destruct (el_addEdge_after (abs im) v v wall He) as (E & _ & _).
    + by apply im_neighbours.
    + unfold EL.neighbours. cbn. apply el_self_loop_once.
      by rewrite el_hasEdge in He.
    + intros r' row Hrow.
      destruct (im_column _ _ v v wall Hwf' Hlast)
        as (r1 & r2 & H1 & H2 & Hcell & _). cbn in H1, H2.
      rewrite (Hcell r' row Hrow).
      assert (r1 = r) as -> by congruence. assert (r2 = r) as -> by congruence.
      f_equal. repeat case_bool_decide; try done; tauto.
    + destruct (im_column _ _ v v wall Hwf' Hlast) as (_ & _ & _ & _ & _ & Hc).
      by rewrite bool_decide_eq_true_2 in Hc.
Qed.

Lemma self_loop_accepted_witness :
  IM.reachable im_scenario
  ∧ (∃ el', EL.addEdge el_scenario A A true = (el', true))
  ∧ (∃ im',
       IM.addEdge im_scenario A A true = Ok (im', true)
       ∧ ones_in_column (IM.incidence_mat im') 2 = 1).
Proof.
  split; [exact im_scenario_reachable|].
  destruct (self_loop_accepted el_scenario im_scenario A true
              im_scenario_reachable) as [Hel Him].
  split.
  - destruct Hel as (el' & H & _); [reflexivity..|]. by exists el'.
  - destruct Him as (im' & ns & r & H & _ & _ & _ & _ & _ & _ & Hc);
      [reflexivity..|].
    by exists im'.
Defined.

(** * Further properties of the two classes *)

(** ** Calls on one pair leave the other pairs alone *)

Lemma other_pair_mismatch a b c d e :
  other_pair a b c d → same_edge a b e = true → same_edge c d e = false.
Proof.
  destruct e as [[v1 v2] w]. intros Hne H%same_edge_true.
  apply not_true_iff_false. rewrite same_edge_true. intros Hc. apply Hne.
  destruct H as [[-> ->]|[-> ->]], Hc as [[<- <-]|[<- <-]]; auto.
Qed.

Lemma other_pair_new a b c d w :
  other_pair a b c d → same_edge c d (a, b, w) = false.
Proof.
  intros Hne. apply not_true_iff_false. rewrite same_edge_true.
  intros Hc. apply Hne. destruct Hc as [[-> ->]|[-> ->]]; auto.
Qed.

Lemma el_getWallStatus_cons vs a b v1 v2 w es :
  EL.getWallStatus (EL.mk ((v1, v2, w) :: es) vs) a b
  = if same_edge a b (v1, v2, w) then w
    else EL.getWallStatus (EL.mk es vs) a b.
Proof.
  unfold EL.getWallStatus. cbn.
  destruct (same_edge a b (v1, v2, w)) eqn:E.
  - by rewrite decide_True.
  - rewrite decide_False by (intros []).
    by destruct (list_find _ es) as [[j [[u1 u2] f]]|].
Qed.

#[local] Arguments EL.getWallStatus : simpl never.

Lemma el_getWallStatus_delete_other vs a b es i e :
  es !! i = Some e → same_edge a b e = false →
  EL.getWallStatus (EL.mk (delete i es) vs) a b
  = EL.getWallStatus (EL.mk es vs) a b.
Proof.
  revert i. induction es as [|[[v1 v2] w] es IH]; intros [|i] Hi He; try done.
  - cbn in Hi. injection Hi as <-. cbn. by rewrite el_getWallStatus_cons, He.
  - cbn in *. rewrite !el_getWallStatus_cons.
    destruct (same_edge a b (v1, v2, w)); [done|]. by apply IH.
Qed.

Lemma edge_in_delete_other a b es i e :
  es !! i = Some e → same_edge a b e = false →
  edge_in a b (delete i es) = edge_in a b es.
Proof.
  unfold edge_in.
  revert i. induction es as [|e0 es IH]; intros [|i] Hi He; try done.
  - cbn in Hi. injection Hi as <-. cbn. by rewrite He.
  - cbn in *. f_equal. by apply IH.
Qed.

Lemma el_getWallStatus_insert_other vs a b es i v1 v2 w s :
  es !! i = Some (v1, v2, w) → same_edge a b (v1, v2, w) = false →
  EL.getWallStatus (EL.mk (<[i:=(v1, v2, s)]> es) vs) a b
  = EL.getWallStatus (EL.mk es vs) a b.
Proof.
  revert i. induction es as [|[[u1 u2] f] es IH]; intros [|i] Hi He; try done.
  - cbn in Hi. injection Hi as -> -> ->. cbn.
    rewrite !el_getWallStatus_cons.
    change (same_edge a b (v1, v2, s)) with (same_edge a b (v1, v2, w)).
    by rewrite He.
  - cbn in *. rewrite !el_getWallStatus_cons.
    destruct (same_edge a b (u1, u2, f)); [done|]. by apply IH.
Qed.

Lemma el_getWallStatus_app_other vs a b es e :
  same_edge a b e = false →
  EL.getWallStatus (EL.mk (es ++ [e]) vs) a b
  = EL.getWallStatus (EL.mk es vs) a b.
Proof.
  intros He. induction es as [|[[v1 v2] w] es IH]; cbn.
  - destruct e as [[v1 v2] w]. by rewrite el_getWallStatus_cons, He.
  - by rewrite !el_getWallStatus_cons, IH.
Qed.

Lemma el_addEdge_frame g a b c d w :
  other_pair a b c d →
  EL.hasEdge (EL.addEdge g a b w).1 c d = EL.hasEdge g c d
  ∧ EL.getWallStatus (EL.addEdge g a b w).1 c d = EL.getWallStatus g c d.
Proof.
  intros Hne. unfold EL.addEdge. repeat case_match; try done. cbn [fst].
  pose proof (other_pair_new a b c d w Hne) as Hn. split.
  - rewrite !el_hasEdge. cbn. rewrite edge_in_app. unfold edge_in at 2. cbn.
    rewrite Hn. by rewrite !orb_false_r.
  - by rewrite el_getWallStatus_app_other.
Qed.

Lemma el_updateWall_frame g a b c d s :
  other_pair a b c d →
  EL.hasEdge (EL.updateWall g a b s).1 c d = EL.hasEdge g c d
  ∧ EL.getWallStatus (EL.updateWall g a b s).1 c d = EL.getWallStatus g c d.
Proof.
  intros Hne. destruct (EL.hasEdge g a b) eqn:E.
  - destruct (el_updateWall_found g a b s E) as (i & v1 & v2 & w & Hi & Hm & _ & ->).
    cbn [fst]. split.
    + rewrite !el_hasEdge. cbn. by rewrite (edge_in_insert_flag _ _ _ _ _ _ w).
    + rewrite (el_getWallStatus_insert_other _ _ _ _ _ _ _ w); [done..|].
      by apply (other_pair_mismatch a b).
  - by rewrite el_updateWall_missing.
Qed.

Lemma el_removeEdge_frame g a b c d :
  other_pair a b c d →
  EL.hasEdge (EL.removeEdge g a b).1 c d = EL.hasEdge g c d
  ∧ EL.getWallStatus (EL.removeEdge g a b).1 c d = EL.getWallStatus g c d.
Proof.
  intros Hne. destruct (EL.hasEdge g a b) eqn:E.
  - destruct (el_removeEdge_found g a b E) as (i & v1 & v2 & w & _ & Hi & Hm & ->).
    cbn [fst]. pose proof (other_pair_mismatch a b c d _ Hne Hm) as Hn. split.
    + rewrite !el_hasEdge. cbn. by rewrite (edge_in_delete_other _ _ _ _ _ Hi).
    + by rewrite (el_getWallStatus_delete_other _ _ _ _ _ _ Hi).
  - by rewrite el_removeEdge_missing.
Qed.

(** X1.  A call of [addEdge], [updateWall] or [removeEdge] for the pair
    [(a, b)] changes neither [hasEdge] nor [getWallStatus] of a pair
    [(c, d)] that is a different unordered pair.  [EdgeListGraph]: in
    every state; [IncMatGraph]: on an object reached from a fresh one,
    whenever the call returns. *)
Theorem other_pairs_untouched (el : EL.graph) (im : IM.graph)
    (a b c d : Coordinates) (w s : bool) :
  IM.reachable im →
  ¬ ((c = a ∧ d = b) ∨ (c = b ∧ d = a)) →
  (∀ el',
     el' = (EL.addEdge el a b w).1 ∨ el' = (EL.updateWall el a b s).1
     ∨ el' = (EL.removeEdge el a b).1 →
     EL.hasEdge el' c d = EL.hasEdge el c d
     ∧ EL.getWallStatus el' c d = EL.getWallStatus el c d)
  ∧ (∀ im' r,
       IM.addEdge im a b w = Ok (im', r) ∨ IM.updateWall im a b s = (im', r)
       ∨ IM.removeEdge im a b = Ok (im', r) →
       IM.hasEdge im' c d = IM.hasEdge im c d
       ∧ IM.getWallStatus im' c d = IM.getWallStatus im c d).
Proof.
  intros Hwf%im_reachable_wf Hne. split.
  - intros el' [-> | [-> | ->]].
    + by apply el_addEdge_frame.
    + by apply el_updateWall_frame.
    + by apply el_removeEdge_frame.
  - intros im' r H. rewrite !im_hasEdge, !im_getWallStatus.
    assert (abs im' = (EL.addEdge (abs im) a b w).1
            ∨ abs im' = (EL.updateWall (abs im) a b s).1
            ∨ abs im' = (EL.removeEdge (abs im) a b).1) as [-> | [-> | ->]].
    { destruct H as [H | [H | H]].
      - destruct (im_addEdge_sim im a b w Hwf) as (g' & Hg & _ & Habs).
        left. congruence.
      - right. left. rewrite <- im_updateWall_abs. cbn. by rewrite H.
      - destruct (im_removeEdge_sim im a b Hwf) as (g' & Hg & _ & Habs).
        right. right. congruence. }
    + by apply el_addEdge_frame.
    + by apply el_updateWall_frame.
    + by apply el_removeEdge_frame.
Qed.

Lemma other_pairs_untouched_witness :
  IM.reachable im_scenario
  ∧ ¬ ((A = A ∧ B = C) ∨ (A = C ∧ B = A))
  ∧ EL.getWallStatus (EL.removeEdge el_scenario A C).1 A B = true
  ∧ (∀ im' r, IM.removeEdge im_scenario A C = Ok (im', r) →
       IM.getWallStatus im' A B = true).
Proof.
  assert (¬ ((A = A ∧ B = C) ∨ (A = C ∧ B = A))) as Hne.
  { intros [[_ [=]]|[[=] _]]. }
  split; [exact im_scenario_reachable|]. split; [exact Hne|].
  destruct (other_pairs_untouched el_scenario im_scenario A C A B false false
              im_scenario_reachable Hne) as [Hel Him].
  split.
  - destruct (Hel (EL.removeEdge el_scenario A C).1) as [_ ->]; [auto|].
    reflexivity.
  - intros im' r H. destruct (Him im' r) as [_ ->]; [auto|]. reflexivity.
Defined.

(** ** Vertices stay, and keep their row *)

Ltac step_bind :=
  match goal with
  | |- context [mbind _ ?m] => destruct m eqn:?; cbn [mbind result_bind]
  end.

Lemma im_addEdge_vertices g a b w g' r :
  IM.addEdge g a b w = Ok (g', r) → IM.vertices g' = IM.vertices g.
Proof.
  unfold IM.addEdge. repeat case_match; try (by intros [= <- <-]).
  repeat step_bind; try done. by intros [= <- <-].
Qed.

Lemma im_removeEdge_vertices g a b g' r :
  IM.removeEdge g a b = Ok (g', r) → IM.vertices g' = IM.vertices g.
Proof.
  unfold IM.removeEdge. repeat case_match; try (by intros [= <- <-]).
  repeat step_bind; try done. by intros [= <- <-].
Qed.

Lemma im_addVertex_index g l v r :
  IM.vertices g !! v = Some r → IM.vertices (IM.addVertex g l) !! v = Some r.
Proof.
  intros H. unfold IM.addVertex. destruct (IM.hasVertex g l) eqn:E; [done|].
  cbn. apply im_hasVertex_false in E. rewrite lookup_insert_ne; [done|].
  congruence.
Qed.

Lemma im_addVertices_index g ls v r :
  IM.vertices g !! v = Some r → IM.vertices (IM.addVertices g ls) !! v = Some r.
Proof.
  unfold IM.addVertices. revert g.
  induction ls as [|l ls IH]; intros g H; [done|].
  cbn. by apply IH, im_addVertex_index.
Qed.

Lemma im_exec_index g o g' v r :
  IM.exec g o = Ok g' →
  IM.vertices g !! v = Some r → IM.vertices g' !! v = Some r.
Proof.
  destruct o as [l|ls|a b w|a b s|a b]; cbn.
  - intros [= <-]. apply im_addVertex_index.
  - intros [= <-]. apply im_addVertices_index.
  - destruct (IM.addEdge g a b w) as [[g1 r1]|] eqn:E; [|done].
    cbn. intros [= <-]. by rewrite (im_addEdge_vertices _ _ _ _ _ _ E).
  - intros [= <-]. unfold IM.updateWall. by repeat case_match.
  - destruct (IM.removeEdge g a b) as [[g1 r1]|] eqn:E; [|done].
    cbn. intros [= <-]. by rewrite (im_removeEdge_vertices _ _ _ _ _ E).
Qed.

Lemma im_run_from_index g ops g' v r :
  IM.run_from g ops = Ok g' →
  IM.vertices g !! v = Some r → IM.vertices g' !! v = Some r.
Proof.
  revert g. induction ops as [|o ops IH]; intros g; cbn.
  - by intros [= <-].
  - destruct (IM.exec g o) as [g1|] eqn:E; [|done]. cbn.
    intros Hr Hv. apply (IH g1 Hr). by apply (im_exec_index g o).
Qed.

Lemma el_exec_keeps g o v :
  v ∈ EL.vertices g → v ∈ EL.vertices (EL.exec g o).
Proof.
  intros H. destruct o as [l|ls|a b w|a b s|a b]; cbn.
  - by apply elem_of_union_r.
  - apply el_addVertices_vertices. by right.
  - unfold EL.addEdge. by repeat case_match.
  - unfold EL.updateWall. by repeat case_match.
  - unfold EL.removeEdge. by repeat case_match.
Qed.

Lemma el_run_from_keeps g ops v :
  v ∈ EL.vertices g → v ∈ EL.vertices (EL.run_from g ops).
Proof.
  unfold EL.run_from. revert g.
  induction ops as [|o ops IH]; intros g H; [done|].
  cbn. by apply IH, el_exec_keeps.
Qed.

(** X2.  No call removes a vertex, from any state: a vertex of the object
    is still one after any further calls, in both classes, and in
    [IncMatGraph] it still has the row index it had ([im'] is the object
    after the calls, which have raised nothing). *)
Theorem vertices_persist (el : EL.graph) (im im' : IM.graph) (ops : list op)
    (v : Coordinates) :
  IM.run_from im ops = Ok im' →
  (EL.hasVertex el v = true → EL.hasVertex (EL.run_from el ops) v = true)
  ∧ (∀ r, IM.vertices im !! v = Some r → IM.vertices im' !! v = Some r)
  ∧ (IM.hasVertex im v = true → IM.hasVertex im' v = true).
Proof.
  intros Hrun. split_and!.
  - rewrite !el_hasVertex_true. apply el_run_from_keeps.
  - intros r. by apply (im_run_from_index im ops).
  - rewrite !im_hasVertex_true. intros [r Hr]. exists r.
    by apply (im_run_from_index im ops im').
Qed.

Lemma vertices_persist_witness :
  ∃ im',
    IM.run_from im_scenario [AddVertex (1, 1)%Z; RemoveEdge A B] = Ok im'
    ∧ IM.vertices im' !! C = Some 2.
Proof.
  eexists. split; [vm_compute; reflexivity|].
  eapply (vertices_persist el_scenario im_scenario _
            [AddVertex (1, 1)%Z; RemoveEdge A B] C).
  - vm_compute. reflexivity.
  - vm_compute. reflexivity.
Defined.

(** X3.  The index dictionary of an [IncMatGraph] reached from a fresh
    object numbers the vertices 0, 1, ..., n-1 without gaps or repeats:
    every index is below the number of vertices, no two vertices share
    one, every number below n is the index of a vertex, and a vertex
    that is new gets the index n. *)
Theorem index_bijection (im : IM.graph) (u : Coordinates) :
  IM.reachable im →
  (∀ v r, IM.vertices im !! v = Some r → r < size (IM.vertices im))
  ∧ (∀ v v' r,
       IM.vertices im !! v = Some r → IM.vertices im !! v' = Some r → v = v')
  ∧ (∀ r, r < size (IM.vertices im) → ∃ v, IM.vertices im !! v = Some r)
  ∧ (IM.hasVertex im u = false →
     IM.vertices (IM.addVertex im u) !! u = Some (size (IM.vertices im))).
Proof.
  intros Hwf%im_reachable_wf. split_and!.
  - intros v r Hv. rewrite <- (wf_height im Hwf). by eapply im_index_lt.
  - apply (wf_inj im Hwf).
  - apply (wf_surj im Hwf).
  - intros Hu. unfold IM.addVertex. rewrite Hu. cbn. apply lookup_insert_eq.
Qed.

Lemma index_bijection_witness :
  IM.reachable im_scenario
  ∧ (∃ v, IM.vertices im_scenario !! v = Some 1)
  ∧ IM.vertices (IM.addVertex im_scenario (1, 1)%Z) !! (1, 1)%Z = Some 3.
Proof.
  split; [exact im_scenario_reachable|].
  destruct (index_bijection im_scenario (1, 1)%Z im_scenario_reachable)
    as (_ & _ & Hsurj & Hnew).
  split.
  - apply Hsurj. vm_compute. lia.
  - apply Hnew. reflexivity.
Defined.

(** ** Adding an edge and removing it again *)

Lemma delete_last {X} (l : list X) x : delete (length l) (l ++ [x]) = l.
Proof. by rewrite delete_middle, app_nil_r. Qed.

Lemma im_addEdge_undo_matrix g a b r1 r2 :
  im_wf g →
  IM.vertices g !! a = Some r1 → IM.vertices g !! b = Some r2 →
  delete (length (IM.edges g))
    <$> (<[r2:=row_of b (IM.edges g) ++ [1%Z]]>
           (<[r1:=row_of a (IM.edges g) ++ [1%Z]]>
              ((λ row, row ++ [0%Z]) <$> IM.incidence_mat g)))
  = IM.incidence_mat g.
Proof.
  intros H Ha Hb. apply list_eq. intros r. rewrite list_lookup_fmap.
  assert (∀ u x, delete (length (IM.edges g)) (row_of u (IM.edges g) ++ [x])
                 = row_of u (IM.edges g)) as Hdel.
  { intros u x. rewrite <- (length_row_of u (IM.edges g)) at 1.
    apply delete_last. }
  destruct (IM.incidence_mat g !! r) as [row|] eqn:Hr.
  - destruct (im_row_owner g r row H Hr) as (u & Hu & ->).
    pose proof (lookup_lt_Some _ _ _ Hr) as Hlt.
    destruct (decide (r2 = r)) as [<-|Hne2].
    { assert (u = b) as -> by (by eapply (wf_inj g H)).
      rewrite list_lookup_insert_eq
        by (by rewrite length_insert, length_fmap).
      cbn. by rewrite Hdel. }
    rewrite list_lookup_insert_ne by done.
    destruct (decide (r1 = r)) as [<-|Hne1].
    { assert (u = a) as -> by (by eapply (wf_inj g H)).
      rewrite list_lookup_insert_eq by (by rewrite length_fmap).
      cbn. by rewrite Hdel. }
    rewrite list_lookup_insert_ne by done.
    rewrite list_lookup_fmap, Hr. cbn. by rewrite Hdel.
  - apply lookup_ge_None in Hr. rewrite lookup_ge_None_2; [done|].
    by rewrite !length_insert, length_fmap.
Qed.

(** X4.  An accepted [addEdge] is undone by [removeEdge] of the same pair,
    in either order of the endpoints: the call returns [True] and the
    object is exactly as before the [addEdge] (for [IncMatGraph], reached
    from a fresh object, the matrix included). *)
Theorem addEdge_removeEdge_round_trip (el : EL.graph) (im : IM.graph)
    (a b : Coordinates) (w : bool) :
  IM.reachable im →
  (EL.hasVertex el a = true → EL.hasVertex el b = true →
   EL.hasEdge el a b = false →
   EL.removeEdge (EL.addEdge el a b w).1 a b = (el, true)
   ∧ EL.removeEdge (EL.addEdge el a b w).1 b a = (el, true))
  ∧ (IM.hasVertex im a = true → IM.hasVertex im b = true →
     IM.hasEdge im a b = false →
     ∃ im1,
       IM.addEdge im a b w = Ok (im1, true)
       ∧ IM.removeEdge im1 a b = Ok (im, true)
       ∧ IM.removeEdge im1 b a = Ok (im, true)).
Proof.
  intros Hwf%im_reachable_wf. split.
  - intros Ha Hb He. rewrite el_addEdge_accepted by done. cbn [fst].
    assert (EL.removeEdge
              (EL.mk (EL.edges el ++ [(a, b, w)]) (EL.vertices el)) a b
            = (el, true)) as Hr.
    { unfold EL.removeEdge. cbn.
      rewrite find_after_append by (by rewrite <- el_hasEdge).
      rewrite delete_last. by destruct el. }
    split; [done|]. unfold EL.removeEdge in *. by rewrite find_edge_sym.
  - intros [r1 Ha]%im_hasVertex_true [r2 Hb]%im_hasVertex_true He.
    eexists. rewrite (im_addEdge_accepted im a b w r1 r2) by done.
    split; [done|].
    pose proof (im_wf_addEdge_accepted im a b w r1 r2 Hwf Ha Hb He) as Hwf'.
    assert (list_find (λ e, same_edge a b e : Prop) (IM.edges im ++ [(a, b, w)])
            = Some (length (IM.edges im), (a, b, w))) as Hf
      by (by apply find_after_append).
    split.
    + rewrite (im_removeEdge_found _ a b _ _ Hwf' Hf). cbn.
      rewrite delete_last, im_addEdge_undo_matrix by done. by destruct im.
    + rewrite find_edge_sym in Hf.
      rewrite (im_removeEdge_found _ b a _ _ Hwf' Hf). cbn.
      rewrite delete_last, im_addEdge_undo_matrix by done. by destruct im.
Qed.

Lemma addEdge_removeEdge_round_trip_witness :
  IM.reachable im_scenario
  ∧ EL.removeEdge (EL.addEdge el_scenario B C true).1 C B = (el_scenario, true)
  ∧ ∃ im1, IM.addEdge im_scenario B C true = Ok (im1, true)
           ∧ IM.removeEdge im1 C B = Ok (im_scenario, true).
Proof.
  split; [exact im_scenario_reachable|].
  destruct (addEdge_removeEdge_round_trip el_scenario im_scenario B C true
              im_scenario_reachable) as [Hel Him].
  split.
  - apply Hel; reflexivity.
  - destruct Him as (im1 & H1 & _ & H2); [reflexivity..|]. by exists im1.
Defined.

(** X5.  Being a neighbour is symmetric: [w] is listed by [neighbours(v)]
    exactly when [v] is listed by [neighbours(w)].  [EdgeListGraph]: in
    every state; [IncMatGraph]: on an object reached from a fresh one,
    where both calls return. *)
Theorem neighbours_symmetric (el : EL.graph) (im : IM.graph)
    (v w : Coordinates) :
  IM.reachable im →
  (w ∈ EL.neighbours el v ↔ v ∈ EL.neighbours el w)
  ∧ ∃ nv nw,
      IM.neighbours im v = Ok nv ∧ IM.neighbours im w = Ok nw
      ∧ (w ∈ nv ↔ v ∈ nw).
Proof.
  intros Hwf%im_reachable_wf.
  assert (∀ g, w ∈ EL.neighbours g v ↔ v ∈ EL.neighbours g w) as Hsym.
  { intros g. unfold EL.neighbours.
    by rewrite !el_neighbours_loop_elem, edge_in_sym. }
  split; [apply Hsym|].
  exists (EL.neighbours (abs im) v), (EL.neighbours (abs im) w).
  split_and!; [by apply im_neighbours..|apply Hsym].
Qed.

Lemma neighbours_symmetric_witness :
  IM.reachable im_scenario
  ∧ A ∈ EL.neighbours el_scenario C
  ∧ ∃ nc, IM.neighbours im_scenario C = Ok nc ∧ A ∈ nc.
Proof.
  split; [exact im_scenario_reachable|].
  destruct (neighbours_symmetric el_scenario im_scenario A C
              im_scenario_reachable) as [Hel (na & nc & Ha & Hc & Him)].
  split.
  - apply Hel. right. left.
  - exists nc. split; [done|]. apply Him.
    vm_compute in Ha. injection Ha as <-. right. left.
Defined.

(** X6.  After any sequence of calls made on a fresh object of each
    class, the two objects hold the same list of tuples, in the same
    order, and the same vertices; a further [addEdge], [updateWall] or
    [removeEdge] returns the same flag from both, and [neighbours]
    returns the same list, in the same order.  [IncMatGraph] raises in
    none of these calls. *)
Theorem backings_agree_on_calls (ops : list op) :
  ∃ im,
    IM.run ops = Ok im
    ∧ IM.edges im = EL.edges (EL.run ops)
    ∧ dom (IM.vertices im) = EL.vertices (EL.run ops)
    ∧ (∀ a b w, ∃ im',
         IM.addEdge im a b w = Ok (im', (EL.addEdge (EL.run ops) a b w).2))
    ∧ (∀ a b s,
         (IM.updateWall im a b s).2 = (EL.updateWall (EL.run ops) a b s).2)
    ∧ (∀ a b, ∃ im',
         IM.removeEdge im a b = Ok (im', (EL.removeEdge (EL.run ops) a b).2))
    ∧ (∀ v, IM.neighbours im v = Ok (EL.neighbours (EL.run ops) v)).
Proof.
  destruct (im_run_sim ops) as (im & Hrun & Hwf & Habs).
  exists im. rewrite <- Habs. split_and!; try done.
  - intros a b w. destruct (im_addEdge_sim im a b w Hwf) as (im' & H & _).
    by exists im'.
  - intros a b s. by rewrite <- im_updateWall_abs.
  - intros a b. destruct (im_removeEdge_sim im a b Hwf) as (im' & H & _).
    by exists im'.
  - intros v. by apply im_neighbours.
Qed.

(** ** Writing a wall flag twice *)

Lemma find_edge_first a b (es : list Edge) :
  edge_in a b es = true →
  ∃ i v1 v2 w,
    list_find (λ e, same_edge a b e : Prop) es = Some (i, (v1, v2, w))
    ∧ ∀ s, list_find (λ e, same_edge a b e : Prop) (<[i:=(v1, v2, s)]> es)
           = Some (i, (v1, v2, s)).
Proof.
  intros (i & v1 & v2 & w & H1 & H2 & H3 & H4)%find_edge_Some.
  exists i, v1, v2, w. split; [done|]. intros s.
  by apply (find_after_update a b es i v1 v2 w s).
Qed.

(** X7.  [updateWall] overwrites: two calls for the same pair leave the
    object, and return, what the second call alone would; and a call
    that writes the flag the edge already has leaves the object exactly
    as it is.  Both classes, every state. *)
Theorem updateWall_overwrites (el : EL.graph) (im : IM.graph)
    (a b : Coordinates) (s s' : bool) :
  (EL.updateWall (EL.updateWall el a b s).1 a b s' = EL.updateWall el a b s'
   ∧ (EL.hasEdge el a b = true → EL.getWallStatus el a b = s →
      EL.updateWall el a b s = (el, true)))
  ∧ (IM.updateWall (IM.updateWall im a b s).1 a b s' = IM.updateWall im a b s'
     ∧ (IM.hasEdge im a b = true → IM.getWallStatus im a b = s →
        IM.updateWall im a b s = (im, true))).
Proof.
  split; split.
  - destruct (EL.hasEdge el a b) eqn:E.
    + rewrite el_hasEdge in E.
      destruct (find_edge_first a b _ E) as (i & v1 & v2 & w & Hf & Hf').
      unfold EL.updateWall. rewrite Hf. cbn. rewrite Hf'.
      by rewrite list_insert_insert_eq.
    + rewrite (el_updateWall_missing el a b s E). cbn [fst].
      by rewrite el_updateWall_missing.
  - rewrite el_hasEdge. intros E Hs.
    destruct (find_edge_first a b _ E) as (i & v1 & v2 & w & Hf & _).
    unfold EL.updateWall, EL.getWallStatus in *. rewrite Hf in *. subst w.
    apply list_find_Some in Hf as [Hi _].
    rewrite list_insert_id by done. by destruct el.
  - destruct (IM.hasEdge im a b) eqn:E.
    + destruct (find_edge_first a b _ E) as (i & v1 & v2 & w & Hf & Hf').
      unfold IM.updateWall. rewrite Hf. cbn. rewrite Hf'.
      by rewrite list_insert_insert_eq.
    + rewrite (im_updateWall_missing im a b s E). cbn [fst].
      by rewrite im_updateWall_missing.
  - intros E Hs.
    destruct (find_edge_first a b _ E) as (i & v1 & v2 & w & Hf & _).
    unfold IM.updateWall, IM.getWallStatus in *.
    rewrite list_find_same_edge' in Hs. rewrite Hf in *. subst w.
    apply list_find_Some in Hf as [Hi _].
    rewrite list_insert_id by done. by destruct im.
Qed.

Lemma updateWall_overwrites_witness :
  EL.updateWall el_scenario A B true = (el_scenario, true)
  ∧ IM.updateWall im_scenario B A true = (im_scenario, true).
Proof.
  destruct (updateWall_overwrites el_scenario im_scenario A B true false)
    as [[_ Hel] _].
  destruct (updateWall_overwrites el_scenario im_scenario B A true false)
    as [_ [_ Him]].
  split; [apply Hel|apply Him]; reflexivity.
Defined.

(** ** [updateWall] changes flags only *)

Lemma el_neighbours_loop_insert_flag v es i v1 v2 w s :
  es !! i = Some (v1, v2, w) →
  EL.neighbours_loop v (<[i:=(v1, v2, s)]> es) = EL.neighbours_loop v es.
Proof.
  revert i. induction es as [|[[u1 u2] f] es IH]; intros [|i] H; try done.
  - cbn in H. by injection H as -> -> ->.
  - specialize (IH i H). simpl. by rewrite IH.
Qed.

Lemma im_neighbours_loop_insert_flag mat r v k es i v1 v2 w s :
  es !! i = Some (v1, v2, w) →
  IM.neighbours_loop mat r v k (<[i:=(v1, v2, s)]> es)
  = IM.neighbours_loop mat r v k es.
Proof.
  revert i k. induction es as [|[[u1 u2] f] es IH]; intros [|i] k H; try done.
  - cbn in H. by injection H as -> -> ->.
  - specialize (IH i (S k) H). simpl. by rewrite IH.
Qed.

(** X8.  [updateWall] changes nothing but a flag: after the call, whether
    it found the edge or not, [hasVertex], [hasEdge] and [neighbours]
    answer as before, for every argument.  Both classes, every state. *)
Theorem updateWall_keeps_structure (el : EL.graph) (im : IM.graph)
    (a b : Coordinates) (s : bool) :
  ((∀ v, EL.hasVertex (EL.updateWall el a b s).1 v = EL.hasVertex el v)
   ∧ (∀ c d, EL.hasEdge (EL.updateWall el a b s).1 c d = EL.hasEdge el c d)
   ∧ (∀ v, EL.neighbours (EL.updateWall el a b s).1 v = EL.neighbours el v))
  ∧ ((∀ v, IM.hasVertex (IM.updateWall im a b s).1 v = IM.hasVertex im v)
     ∧ (∀ c d, IM.hasEdge (IM.updateWall im a b s).1 c d = IM.hasEdge im c d)
     ∧ (∀ v, IM.neighbours (IM.updateWall im a b s).1 v = IM.neighbours im v)).
Proof.
  split.
  - unfold EL.updateWall.
    destruct (list_find _ (EL.edges el)) as [[i [[v1 v2] w]]|] eqn:Hf; [|done].
    apply list_find_Some in Hf as [Hi _]. cbn [fst]. split_and!; [done|..].
    + intros c d. rewrite !el_hasEdge. cbn.
      by rewrite (edge_in_insert_flag _ _ _ _ _ _ w).
    + intros v. unfold EL.neighbours. cbn.
      by rewrite (el_neighbours_loop_insert_flag _ _ _ _ _ w).
  - unfold IM.updateWall.
    destruct (list_find _ (IM.edges im)) as [[i [[v1 v2] w]]|] eqn:Hf; [|done].
    apply list_find_Some in Hf as [Hi _]. cbn [fst]. split_and!; [done|..].
    + intros c d. rewrite !im_hasEdge, !el_hasEdge. cbn.
      by rewrite (edge_in_insert_flag _ _ _ _ _ _ w).
    + intros v. unfold IM.neighbours, IM.hasVertex. cbn.
      case_bool_decide; [|done]. destruct (dict_getitem _ v); [|done]. cbn.
      by rewrite (im_neighbours_loop_insert_flag _ _ _ _ _ _ _ _ w).
Qed.

(** ** A new vertex has no neighbours *)

Lemma el_wf_untouched g v :
  el_wf g → v ∉ EL.vertices g → ∀ e, e ∈ EL.edges g → touches v e = false.
Proof.
  intros [Hin _] Hv e He. destruct (touches v e) eqn:E; [|done].
  destruct Hv. by apply (endpoints_in_touches _ _ v e Hin He).
Qed.

Lemma el_fresh_isolated g v :
  el_wf g → EL.hasVertex g v = false →
  EL.neighbours (EL.addVertex g v) v = []
  ∧ ∀ w, EL.hasEdge (EL.addVertex g v) v w = false.
Proof.
  intros Hwf Hv. apply bool_decide_eq_false in Hv.
  assert (EL.neighbours_loop v (EL.edges g) = []) as Hn
    by (by apply el_neighbours_loop_untouched, el_wf_untouched).
  split; [done|]. intros w. rewrite el_hasEdge. cbn.
  apply not_true_iff_false. rewrite <- el_neighbours_loop_elem, Hn.
  apply not_elem_of_nil.
Qed.

(** X9.  A vertex that is new has no edges: on an object reached from a
    fresh one, after [addVertex(v)] for a [v] that was not a vertex,
    [neighbours(v)] is empty and [hasEdge(v, w)] is [False] for every
    [w]; in [IncMatGraph] the row appended for [v] holds one 0 per
    edge. *)
Theorem fresh_vertex_isolated (el : EL.graph) (im : IM.graph)
    (v : Coordinates) :
  EL.reachable el → IM.reachable im →
  (EL.hasVertex el v = false →
   EL.neighbours (EL.addVertex el v) v = []
   ∧ ∀ w, EL.hasEdge (EL.addVertex el v) v w = false)
  ∧ (IM.hasVertex im v = false →
     IM.neighbours (IM.addVertex im v) v = Ok []
     ∧ (∀ w, IM.hasEdge (IM.addVertex im v) v w = false)
     ∧ IM.incidence_mat (IM.addVertex im v) !! size (IM.vertices im)
       = Some (replicate (length (IM.edges im)) 0%Z)).
Proof.
  intros Hel%el_reachable_wf Him%im_reachable_wf. split.
  - by apply el_fresh_isolated.
  - intros Hv.
    destruct (el_fresh_isolated (abs im) v (wf_edges im Him)) as [Hn He].
    { by rewrite <- im_hasVertex. }
    rewrite <- abs_addVertex in Hn, He. split_and!.
    + rewrite im_neighbours by (by apply im_wf_addVertex). by rewrite Hn.
    + intros w. by rewrite im_hasEdge.
    + unfold IM.addVertex. rewrite Hv. cbn.
      by rewrite <- (wf_height im Him), lookup_app_r, Nat.sub_diag.
Qed.

Lemma fresh_vertex_isolated_witness :
  EL.reachable el_scenario ∧ IM.reachable im_scenario
  ∧ EL.neighbours (EL.addVertex el_scenario (1, 1)%Z) (1, 1)%Z = []
  ∧ IM.incidence_mat (IM.addVertex im_scenario (1, 1)%Z) !! 3
    = Some [0; 0]%Z.
Proof.
  split; [exact el_scenario_reachable|].
  split; [exact im_scenario_reachable|].
  destruct (fresh_vertex_isolated el_scenario im_scenario (1, 1)%Z
              el_scenario_reachable im_scenario_reachable) as [Hel Him].
  split.
  - apply Hel. reflexivity.
  - destruct Him as (_ & _ & H); [reflexivity|]. exact H.
Defined.

(** ** Rows count neighbours *)

Lemma ones_row_of v es :
  ones_in_row (row_of v es) = length (EL.neighbours_loop v es).
Proof.
  unfold ones_in_row, row_of.
  induction es as [|[[v1 v2] w] es IH]; [done|].
  rewrite fmap_cons. cbv beta. cbn [EL.neighbours_loop].
  destruct (touches v (v1, v2, w)) eqn:Ht.
  - rewrite filter_cons_True by done. cbn [length]. rewrite IH.
    unfold touches in Ht. by repeat case_bool_decide.
  - rewrite filter_cons_False by done. rewrite IH.
    unfold touches in Ht. by repeat case_bool_decide.
Qed.

(** X10.  In an [IncMatGraph] reached from a fresh object, the number of
    1-cells in the row of a vertex is the length of the list that
    [neighbours] returns for it. *)
Theorem row_counts_neighbours (im : IM.graph) (v : Coordinates) (r : nat) :
  IM.reachable im → IM.vertices im !! v = Some r →
  ∃ row ns,
    IM.incidence_mat im !! r = Some row
    ∧ IM.neighbours im v = Ok ns
    ∧ ones_in_row row = length ns.
Proof.
  intros Hwf%im_reachable_wf Hv.
  exists (row_of v (IM.edges im)), (EL.neighbours (abs im) v). split_and!.
  - by apply (wf_rows im Hwf).
  - by apply im_neighbours.
  - apply ones_row_of.
Qed.

Lemma row_counts_neighbours_witness :
  IM.reachable im_scenario ∧ IM.vertices im_scenario !! A = Some 0
  ∧ ∃ ns, IM.neighbours im_scenario A = Ok ns ∧ length ns = 2.
Proof.
  split; [exact im_scenario_reachable|]. split; [reflexivity|].
  destruct (row_counts_neighbours im_scenario A 0 im_scenario_reachable
              eq_refl) as (row & ns & Hrow & Hns & Hc).
  exists ns. split; [done|]. rewrite <- Hc.
  vm_compute in Hrow. injection Hrow as <-. reflexivity.
Defined.

(** ** Walls sit on edges, edges on vertices *)

Lemma el_edge_facts g a b :
  el_wf g → EL.hasEdge g a b = true →
  EL.hasVertex g a = true ∧ EL.hasVertex g b = true ∧ b ∈ EL.neighbours g a.
Proof.
  intros [Hin _] He. rewrite el_hasEdge in He.
  pose proof He as (e & Hel & Hs)%edge_in_true.
  rewrite !el_hasVertex_true. split_and!.
  - apply (endpoints_in_touches _ _ a e Hin Hel).
    by apply (same_edge_touches a b).
  - apply (endpoints_in_touches _ _ b e Hin Hel).
    apply (same_edge_touches b a). by rewrite same_edge_sym.
  - by apply el_neighbours_loop_elem.
Qed.

Lemma el_wall_edge g a b :
  EL.getWallStatus g a b = true → EL.hasEdge g a b = true.
Proof.
  intros H. destruct (EL.hasEdge g a b) eqn:E; [done|].
  rewrite el_getWallStatus_missing in H; done.
Qed.

(** X11.  A wall is reported only where there is an edge between two
    vertices: on objects reached from a fresh one, when
    [getWallStatus(a, b)] is [True], then [hasEdge(a, b)] is [True], [a]
    and [b] are vertices, and [b] is listed by [neighbours(a)].  Both
    classes. *)
Theorem wall_implies_edge (el : EL.graph) (im : IM.graph) (a b : Coordinates) :
  EL.reachable el → IM.reachable im →
  (EL.getWallStatus el a b = true →
   EL.hasEdge el a b = true
   ∧ EL.hasVertex el a = true ∧ EL.hasVertex el b = true
   ∧ b ∈ EL.neighbours el a)
  ∧ (IM.getWallStatus im a b = true →
     IM.hasEdge im a b = true
     ∧ IM.hasVertex im a = true ∧ IM.hasVertex im b = true
     ∧ ∃ ns, IM.neighbours im a = Ok ns ∧ b ∈ ns).
Proof.
  intros Hel%el_reachable_wf Him%im_reachable_wf. split.
  - intros He%el_wall_edge. split; [done|]. by apply el_edge_facts.
  - rewrite im_getWallStatus. intros He%el_wall_edge.
    destruct (el_edge_facts (abs im) a b (wf_edges im Him) He)
      as (Ha & Hb & Hn).
    rewrite !im_hasVertex, im_hasEdge. split_and!; try done.
    exists (EL.neighbours (abs im) a). split; [|done]. by apply im_neighbours.
Qed.

Lemma wall_implies_edge_witness :
  EL.reachable el_scenario ∧ IM.reachable im_scenario
  ∧ EL.hasEdge el_scenario B A = true ∧ IM.hasEdge im_scenario B A = true.
Proof.
  split; [exact el_scenario_reachable|].
  split; [exact im_scenario_reachable|].
  destruct (wall_implies_edge el_scenario im_scenario B A
              el_scenario_reachable im_scenario_reachable) as [Hel Him].
  split.
  - apply Hel. reflexivity.
  - apply Him. reflexivity.
Defined.

(** ** [addVertices] *)

(** X12.  [addVertices(ls)] adds exactly the labels of [ls]: afterwards
    [hasVertex(v)] is [True] exactly when [v] is in [ls] or was a vertex
    before; the edges are untouched.  Both classes, every state. *)
Theorem addVertices_contract (el : EL.graph) (im : IM.graph)
    (ls : list Coordinates) (v : Coordinates) :
  ((EL.hasVertex (EL.addVertices el ls) v = true
    ↔ v ∈ ls ∨ EL.hasVertex el v = true)
   ∧ EL.edges (EL.addVertices el ls) = EL.edges el)
  ∧ ((IM.hasVertex (IM.addVertices im ls) v = true
      ↔ v ∈ ls ∨ IM.hasVertex im v = true)
     ∧ IM.edges (IM.addVertices im ls) = IM.edges im).
Proof.
  assert (∀ g, EL.edges (EL.addVertices g ls) = EL.edges g) as Hedges.
  { unfold EL.addVertices. induction ls as [|l ls' IH]; intros g; [done|].
    cbn. by rewrite IH. }
  split; split.
  - rewrite !el_hasVertex_true. apply el_addVertices_vertices.
  - apply Hedges.
  - rewrite !im_hasVertex, abs_addVertices, !el_hasVertex_true.
    apply el_addVertices_vertices.
  - change (EL.edges (abs (IM.addVertices im ls)) = EL.edges (abs im)).
    rewrite abs_addVertices. apply Hedges.
Qed.

(** ** No parallel edges *)

Lemma simple_lookup es i j a b w a' b' w' :
  simple es →
  es !! i = Some (a, b, w) → es !! j = Some (a', b', w') →
  same_edge a b (a', b', w') = true → i = j.
Proof.
  revert i j. induction es as [|[[v1 v2] f] es IH]; intros [|i] [|j] Hs Hi Hj Hm;
    try done; cbn in Hs, Hi, Hj; destruct Hs as [Hno Hs].
  - injection Hi as -> -> ->. exfalso.
    assert (edge_in a b es = true); [|congruence].
    apply edge_in_true. exists (a', b', w'). split; [|done].
    by eapply list_elem_of_lookup_2.
  - injection Hj as -> -> ->. exfalso.
    assert (edge_in a' b' es = true); [|congruence].
    apply edge_in_true. exists (a, b, w). split.
    + by eapply list_elem_of_lookup_2.
    + by rewrite (same_edge_swap a' b' a b w w').
  - f_equal. by apply IH.
Qed.

(** X13.  No parallel edges: on an object reached from a fresh one, two
    stored tuples never join the same unordered pair of vertices; if the
    tuples at positions [i] and [j] do, then [i = j].  Both classes. *)
Theorem no_parallel_edges (el : EL.graph) (im : IM.graph) (i j : nat)
    (a b a' b' : Coordinates) (w w' : bool) :
  EL.reachable el → IM.reachable im →
  (a' = a ∧ b' = b) ∨ (a' = b ∧ b' = a) →
  (EL.edges el !! i = Some (a, b, w) → EL.edges el !! j = Some (a', b', w') →
   i = j)
  ∧ (IM.edges im !! i = Some (a, b, w) → IM.edges im !! j = Some (a', b', w') →
     i = j).
Proof.
  intros [_ Hel]%el_reachable_wf Him%im_reachable_wf Hm.
  apply (same_edge_true a b a' b' w') in Hm.
  destruct (wf_edges im Him) as [_ Hs]. split.
  - intros Hi Hj. by eapply (simple_lookup (EL.edges el)).
  - intros Hi Hj. by eapply (simple_lookup (IM.edges im)).
Qed.

Lemma no_parallel_edges_witness :
  EL.reachable el_scenario ∧ IM.reachable im_scenario
  ∧ ((A = A ∧ C = C) ∨ (A = C ∧ C = A))
  ∧ EL.edges el_scenario !! 1 = Some (A, C, false)
  ∧ 1 = 1.
Proof.
  split; [exact el_scenario_reachable|].
  split; [exact im_scenario_reachable|].
  assert ((A = A ∧ C = C) ∨ (A = C ∧ C = A)) as Hm by (by left).
  split; [exact Hm|]. split; [reflexivity|].
  destruct (no_parallel_edges el_scenario im_scenario 1 1 A C A C false false
              el_scenario_reachable im_scenario_reachable Hm) as [Hel _].
  apply Hel; reflexivity.
Defined.

(** ** [neighbours] lists in the order the edges were added *)

(** X14.  An accepted [addEdge(a, b)] appends to the neighbour lists and
    changes nothing else in them: afterwards [neighbours(a)] is the list
    from before followed by [b], [neighbours(b)] for [b] other than [a]
    is the list from before followed by [a], and [neighbours(v)] of any
    other [v] is as before.  [IncMatGraph]: on an object reached from a
    fresh one. *)
Theorem addEdge_extends_neighbours (el : EL.graph) (im : IM.graph)
    (a b v : Coordinates) (w : bool) :
  IM.reachable im →
  (EL.hasVertex el a = true → EL.hasVertex el b = true →
   EL.hasEdge el a b = false →
   EL.neighbours (EL.addEdge el a b w).1 v
   = EL.neighbours el v
     ++ (if bool_decide (a = v) then [b]
         else if bool_decide (b = v) then [a] else []))
  ∧ (IM.hasVertex im a = true → IM.hasVertex im b = true →
     IM.hasEdge im a b = false →
     ∃ im' ns,
       IM.addEdge im a b w = Ok (im', true)
       ∧ IM.neighbours im v = Ok ns
       ∧ IM.neighbours im' v
         = Ok (ns ++ (if bool_decide (a = v) then [b]
                      else if bool_decide (b = v) then [a] else []))).
Proof.
  intros Hwf%im_reachable_wf.
  assert (∀ g, EL.hasVertex g a = true → EL.hasVertex g b = true →
    EL.hasEdge g a b = false →
    EL.neighbours (EL.addEdge g a b w).1 v
    = EL.neighbours g v
      ++ (if bool_decide (a = v) then [b]
          else if bool_decide (b = v) then [a] else [])) as Hel.
  { intros g Ha Hb He. rewrite el_addEdge_accepted by done.
    unfold EL.neighbours. cbn [fst EL.edges].
    by rewrite el_neighbours_loop_app. }
  split; [apply Hel|].
  intros Ha Hb He.
  destruct (im_addEdge_sim im a b w Hwf) as (im' & Hadd & Hwf' & Habs).
  rewrite el_addEdge_accepted in Hadd, Habs
    by (by rewrite <- ?im_hasVertex, <- ?im_hasEdge).
  exists im', (EL.neighbours (abs im) v). split_and!.
  - exact Hadd.
  - by apply im_neighbours.
  - rewrite (im_neighbours im' v Hwf'), Habs.
    rewrite <- Hel by (by rewrite <- ?im_hasVertex, <- ?im_hasEdge).
    by rewrite el_addEdge_accepted
      by (by rewrite <- ?im_hasVertex, <- ?im_hasEdge).
Qed.

Lemma addEdge_extends_neighbours_witness :
  IM.reachable im_scenario
  ∧ EL.neighbours (EL.addEdge el_scenario B C true).1 C = [A; B]
  ∧ ∃ im', IM.addEdge im_scenario B C true = Ok (im', true)
           ∧ IM.neighbours im' C = Ok [A; B].
Proof.
  split; [exact im_scenario_reachable|].
  destruct (addEdge_extends_neighbours el_scenario im_scenario B C C true
              im_scenario_reachable) as [Hel Him].
  split.
  - rewrite Hel by reflexivity. reflexivity.
  - destruct Him as (im' & ns & Hadd & Hns & Hn); [reflexivity..|].
    exists im'. split; [done|]. rewrite Hn.
    vm_compute in Hns. injection Hns as <-. reflexivity.
Defined.
